(** * Ridge regression from scratch: the [RidgeRegression] estimator

    A shallow embedding of the class [RidgeRegression] of
    [ridge_regression_scratch.ipynb] and of the NumPy and scikit-learn
    routines it calls, followed by the properties of [fit], [predict],
    [score], [get_params] and [set_params].

    The arrays of the notebook hold IEEE doubles.  The class is written
    once, over an [arithmetic]: the type of array entries, the operations
    NumPy applies entry by entry and the kernels it hands whole arrays to
    (matrix products, the LAPACK inverse, reductions).  Two arithmetics
    are given: [binary64], the doubles with their rounding, and [exact],
    the ordered field the specification reasons in.  Properties stated
    for every arithmetic hold of the code as it runs; what holds in
    [exact] only is a property of the formulas, not of the floats.

    Arrays are Python objects with identity; they live in a store and the
    methods are written in a state-and-exception monad over that store.
    Following the data model of the estimator, a design matrix is a
    two-dimensional array, a target is a one-dimensional array and
    [alpha] is a number; the store keeps the three kinds of objects
    (estimators, matrices, vectors) in three regions. *)

From HB Require Import structures.
From Stdlib Require Import String ZArith Lia SpecFloat.
From mathcomp Require Import boot order algebra.

Set Implicit Arguments.
Unset Strict Implicit.
Unset Printing Implicit Defensive.

Import Order.POrderTheory GRing.Theory Num.Theory.
Local Open Scope ring_scope.
Delimit Scope Z_scope with Zb.

(** ** Python outcomes *)

(** The exception classes that the modelled calls can raise. *)
Inductive exn : Type :=
  | LinAlgError   (* numpy.linalg.LinAlgError: singular or non-square matrix *)
  | ValueError    (* shapes not aligned, inconsistent numbers of samples *)
  | TypeError     (* arithmetic between a float and None *)
  | IndexError.   (* index out of bounds *)

(** A call returns, raises, or is [Stuck] when it is handed a location that
    denotes no object (no Python program can build such a reference). *)
Inductive outcome (A : Type) : Type :=
  | Return (a : A)
  | Raise (e : exn)
  | Stuck.

Arguments Return {A} a.
Arguments Raise {A} e.
Arguments Stuck {A}.

(** ** Generic store cells *)

Section Cells.
Variable T : Type.

Fixpoint lookup (s : seq T) (l : nat) : option T :=
  match s, l with
  | [::], _ => None
  | x :: _, 0%N => Some x
  | _ :: s', l'.+1 => lookup s' l'
  end.

Fixpoint update (s : seq T) (l : nat) (x : T) : seq T :=
  match s, l with
  | [::], _ => [::]
  | _ :: s', 0%N => x :: s'
  | y :: s', l'.+1 => y :: update s' l' x
  end.

End Cells.

(** ** Arithmetic *)

(** What the class needs of the numbers in its arrays.  [fadd], [fsub],
    [fmul] and [fdiv] are the operations on two floats, which NumPy applies
    entry by entry; [is_zero x] is the test [x == 0] and [isfinite] is
    [np.isfinite]; [of_count n] is the float of the integer [n].  The
    kernels take whole arrays: [matmul_kernel] and [matvec_kernel] are the
    BLAS products behind [@] and [dot], [inv_kernel] is the LAPACK routine
    behind [np.linalg.inv], which fails on some matrices, and [sum_kernel]
    is the reduction behind [sum].  The order in which a kernel adds its
    terms is its own business. *)
Record arithmetic : Type := Arithmetic {
  num :> Type;
  fzero : num;
  fone : num;
  of_count : nat -> num;
  fadd : num -> num -> num;
  fsub : num -> num -> num;
  fmul : num -> num -> num;
  fdiv : num -> num -> num;
  is_zero : num -> bool;
  isfinite : num -> bool;
  matmul_kernel :
    forall m n p, 'M[num]_(m, n) -> 'M[num]_(n, p) -> 'M[num]_(m, p);
  matvec_kernel : forall m n, 'M[num]_(m, n) -> 'cV[num]_n -> 'cV[num]_m;
  inv_kernel : forall n, 'M[num]_n -> option 'M[num]_n;
  sum_kernel : forall n, 'cV[num]_n -> num
}.

Arguments fzero {a}.
Arguments fone {a}.
Arguments of_count {a} n.
Arguments fadd {a} x y.
Arguments fsub {a} x y.
Arguments fmul {a} x y.
Arguments fdiv {a} x y.
Arguments is_zero {a} x.
Arguments isfinite {a} x.
Arguments matmul_kernel {a m n p} A B.
Arguments matvec_kernel {a m n} A v.
Arguments inv_kernel {a n} A.
Arguments sum_kernel {a n} v.

(** The few laws of arithmetic that the properties below rely on.  They
    hold of the reals and of IEEE doubles alike: no rounding is involved
    in any of them. *)
Record lawful (K : arithmetic) : Prop := Lawful {
  fsub_self : forall x : K, isfinite x -> fsub x x = fzero;
  fmul_zero : fmul fzero fzero = fzero :> K;
  fdiv_self : forall x : K, isfinite x -> ~~ is_zero x -> fdiv x x = fone;
  is_zero_fzero : is_zero (fzero : K);
  isfinite_fone : isfinite (fone : K);
  fmul_finite_zero : forall a : K, isfinite a -> is_zero (fmul a fzero);
  fadd_zeros : forall x y : K, is_zero x -> is_zero y -> is_zero (fadd x y);
  sum_zeros : forall n, sum_kernel (const_mx fzero : 'cV[K]_n) = fzero;
  matmul_empty :
    forall m p (A : 'M[K]_(m, 0)) (B : 'M[K]_(0, p)),
      matmul_kernel A B = const_mx fzero;
  inv_zero_column :
    forall n (A : 'M[K]_n.+1),
      (forall i, is_zero (A i ord0)) -> inv_kernel A = None
}.

Section Model.

Variable K : arithmetic.

(** ** Arrays *)

(** A two-dimensional [ndarray] of shape [(nrows, ncols)] and a
    one-dimensional one of shape [(vlen,)]. *)
Record matrix : Type :=
  Mat { nrows : nat; ncols : nat; mdata : 'M[K]_(nrows, ncols) }.

Record vector : Type :=
  Vec { vlen : nat; vdata : 'cV[K]_vlen }.

(** Shapes are dynamic: an array is used at shape [(m, n)] only after the
    run-time test that this is its shape. *)
Definition as_shape (m n : nat) (A : matrix) : option 'M[K]_(m, n) :=
  match nrows A =P m, ncols A =P n with
  | ReflectT em, ReflectT en => Some (castmx (em, en) (mdata A))
  | _, _ => None
  end.

Definition as_len (n : nat) (v : vector) : option 'cV[K]_n :=
  match vlen v =P n with
  | ReflectT e => Some (castmx (e, erefl 1%N) (vdata v))
  | _ => None
  end.

(** [v[i]] for an index already known to be in range. *)
Definition vget (v : vector) (i : nat) : K :=
  if insub i is Some o then vdata v o 0 else fzero.

(** The result of array arithmetic: a float vector in the store, or an
    array of dtype object with no element.  The latter is what NumPy
    returns when an array without elements meets [None]: [None] becomes a
    zero-dimensional object array and the operation runs element by
    element over nothing. *)
Inductive pyarray : Type :=
  | FloatVec (l : nat)
  | EmptyObject (shape : seq nat).

(** A Python float as returned by [r2_score]: the float it computed, or
    the [nan] it returns without computing anything. *)
Inductive pyfloat : Type :=
  | Float (x : K)
  | NaN.

(** ** The store *)

(** Instance attributes of a [RidgeRegression] object; [None] is the
    absent value of [coef_] and [intercept_] set by [__init__]. *)
Record estimator : Type :=
  Estimator { alpha : K; coef_ : option nat; intercept_ : option K }.

Record store : Type :=
  Store { objs : seq estimator; mats : seq matrix; vecs : seq vector }.

Definition M (A : Type) : Type := store -> outcome A * store.

Definition ret {A : Type} (a : A) : M A := fun s => (Return a, s).

Definition raise {A : Type} (e : exn) : M A := fun s => (Raise e, s).

Definition bind {A B : Type} (m : M A) (k : A -> M B) : M B :=
  fun s =>
    match m s with
    | (Return a, s') => k a s'
    | (Raise e, s') => (Raise e, s')
    | (Stuck, s') => (Stuck, s')
    end.

Notation "x <- m ;; k" := (bind m (fun x => k))
  (at level 100, m at next level, right associativity).
Notation "m ;;; k" := (bind m (fun _ => k))
  (at level 100, right associativity).

Definition load_mat (l : nat) : M matrix :=
  fun s => if lookup (mats s) l is Some A then (Return A, s) else (Stuck, s).

Definition load_vec (l : nat) : M vector :=
  fun s => if lookup (vecs s) l is Some v then (Return v, s) else (Stuck, s).

Definition load_obj (l : nat) : M estimator :=
  fun s => if lookup (objs s) l is Some e then (Return e, s) else (Stuck, s).

Definition alloc_mat (A : matrix) : M nat :=
  fun s => (Return (size (mats s)),
            Store (objs s) (rcons (mats s) A) (vecs s)).

Definition alloc_vec (v : vector) : M nat :=
  fun s => (Return (size (vecs s)),
            Store (objs s) (mats s) (rcons (vecs s) v)).

Definition alloc_obj (e : estimator) : M nat :=
  fun s => (Return (size (objs s)),
            Store (rcons (objs s) e) (mats s) (vecs s)).

Definition store_mat (l : nat) (A : matrix) : M unit :=
  fun s => if (l < size (mats s))%N
           then (Return tt, Store (objs s) (update (mats s) l A) (vecs s))
           else (Stuck, s).

Definition store_obj (l : nat) (e : estimator) : M unit :=
  fun s => if (l < size (objs s))%N
           then (Return tt, Store (update (objs s) l e) (mats s) (vecs s))
           else (Stuck, s).

(** ** Values of arrays *)

(** The entries of [np.identity(k)]. *)
Definition identity (k : nat) : 'M[K]_k :=
  \matrix_(i, j) if i == j then fone else fzero.

(** [c * a]: every entry multiplied by the scalar [c]. *)
Definition scaled (c : K) (m n : nat) (A : 'M[K]_(m, n)) : 'M[K]_(m, n) :=
  \matrix_(i, j) fmul c (A i j).

(** [a + b]: the entries added one by one. *)
Definition added (m n : nat) (A B : 'M[K]_(m, n)) : 'M[K]_(m, n) :=
  \matrix_(i, j) fadd (A i j) (B i j).

(** [z + b]: the scalar [b] added to every entry. *)
Definition shifted (n : nat) (z : 'cV[K]_n) (b : K) : 'cV[K]_n :=
  \col_i fadd (z i 0) b.

(** ** NumPy *)

(** [X.copy()] *)
Definition ndarray_copy (X : nat) : M nat :=
  A <- load_mat X ;; alloc_mat A.

(** [X.shape[0]] and [X.shape[1]] *)
Definition shape0 (X : nat) : M nat := A <- load_mat X ;; ret (nrows A).
Definition shape1 (X : nat) : M nat := A <- load_mat X ;; ret (ncols A).

(** [np.ones((n, k))] *)
Definition np_ones (n k : nat) : M nat :=
  alloc_mat (Mat (const_mx fone : 'M[K]_(n, k))).

(** [np.hstack([a, b])] for two-dimensional [a] and [b]: the row counts
    must agree. *)
Definition np_hstack (a b : nat) : M nat :=
  A <- load_mat a ;;
  B <- load_mat b ;;
  if as_shape (nrows A) (ncols B) B is Some B'
  then alloc_mat (Mat (row_mx (mdata A) B'))
  else raise ValueError.

(** [np.identity(k)] *)
Definition np_identity (k : nat) : M nat :=
  alloc_mat (Mat (identity k)).

(** [a[i, j] = x]: writes into the array [a] itself. *)
Definition setitem (a : nat) (i j : nat) (x : K) : M unit :=
  A <- load_mat a ;;
  if (i < nrows A)%N && (j < ncols A)%N
  then store_mat a
         (Mat (\matrix_(r, c) if (r == i :> nat) && (c == j :> nat)
                              then x else mdata A r c))
  else raise IndexError.

(** [a.T].  NumPy returns a view on the buffer of [a]; nothing in the
    class writes through a view, so it is modelled as an array of its
    own. *)
Definition transpose (a : nat) : M nat :=
  A <- load_mat a ;; alloc_mat (Mat (mdata A)^T).

(** [a @ b] for two-dimensional operands *)
Definition matmul (a b : nat) : M nat :=
  A <- load_mat a ;;
  B <- load_mat b ;;
  if as_shape (ncols A) (ncols B) B is Some B'
  then alloc_mat (Mat (matmul_kernel (mdata A) B'))
  else raise ValueError.

(** [a @ y] for a two-dimensional [a] and a one-dimensional [y] *)
Definition matvec (a y : nat) : M nat :=
  A <- load_mat a ;;
  v <- load_vec y ;;
  if as_len (ncols A) v is Some v'
  then alloc_vec (Vec (matvec_kernel (mdata A) v'))
  else raise ValueError.

(** [c * a] for a scalar [c] *)
Definition scalar_mul (c : K) (a : nat) : M nat :=
  A <- load_mat a ;; alloc_mat (Mat (scaled c (mdata A))).

(** [a + b] for operands of one shape.  (Operands of different shapes
    would be broadcast; [fit] only adds two square arrays of the same
    order.) *)
Definition np_add (a b : nat) : M nat :=
  A <- load_mat a ;;
  B <- load_mat b ;;
  if as_shape (nrows A) (ncols A) B is Some B'
  then alloc_mat (Mat (added (mdata A) B'))
  else raise ValueError.

(** [np.linalg.inv(a)]: [LinAlgError] when the array is not square or
    when the LAPACK routine reports a failure; otherwise the array that
    the routine computed. *)
Definition linalg_inv (a : nat) : M nat :=
  A <- load_mat a ;;
  if as_shape (nrows A) (nrows A) A is Some A'
  then if inv_kernel A' is Some B then alloc_mat (Mat B)
       else raise LinAlgError
  else raise LinAlgError.

(** [w[0]] *)
Definition getitem0 (w : nat) : M K :=
  v <- load_vec w ;;
  if (0 < vlen v)%N then ret (vget v 0) else raise IndexError.

(** [w[1:]] (a view, modelled as an array of its own) *)
Definition slice_from1 (w : nat) : M nat :=
  v <- load_vec w ;;
  alloc_vec (Vec (\col_(i < (vlen v).-1) vget v i.+1)).

(** [X.dot(c)] where [c] is the value of an attribute: [None] or a
    one-dimensional array. *)
Definition ndarray_dot (X : nat) (c : option nat) : M pyarray :=
  A <- load_mat X ;;
  match c with
  | None =>
      if (nrows A * ncols A == 0)%N
      then ret (EmptyObject [:: nrows A; ncols A])
      else raise TypeError
  | Some lc =>
      v <- load_vec lc ;;
      if as_len (ncols A) v is Some v'
      then l <- alloc_vec (Vec (matvec_kernel (mdata A) v')) ;;
           ret (FloatVec l)
      else raise ValueError
  end.

(** [z + b] where [b] is the value of an attribute: [None] or a float. *)
Definition add_scalar (z : pyarray) (b : option K) : M pyarray :=
  match z with
  | EmptyObject sh => ret (EmptyObject sh)
  | FloatVec l =>
      v <- load_vec l ;;
      match b with
      | Some b' =>
          l' <- alloc_vec (Vec (shifted (vdata v) b')) ;; ret (FloatVec l')
      | None =>
          if (vlen v == 0)%N then ret (EmptyObject [:: 0%N])
          else raise TypeError
      end
  end.

(** ** scikit-learn *)

(** [np.average(y)]: the sum of the entries divided by their number. *)
Definition mean (n : nat) (y : 'cV[K]_n) : K :=
  fdiv (sum_kernel y) (of_count n).

(** The numerator and the denominator of [r2_score]:
    [((y - yhat) ** 2).sum()] and [((y - np.average(y)) ** 2).sum()]. *)
Definition ss_res (n : nat) (y yhat : 'cV[K]_n) : K :=
  sum_kernel (\col_i (let d := fsub (y i 0) (yhat i 0) in fmul d d)).

Definition ss_tot (n : nat) (y : 'cV[K]_n) : K :=
  sum_kernel (\col_i (let d := fsub (y i 0) (mean y) in fmul d d)).

(** The score assembled by [r2_score]: [1 - numerator / denominator]
    where both are non-zero, [0.0] for a non-zero numerator over a zero
    denominator, [1.0] otherwise. *)
Definition r2 (n : nat) (y yhat : 'cV[K]_n) : K :=
  let numerator := ss_res y yhat in
  let denominator := ss_tot y in
  if ~~ is_zero numerator && ~~ is_zero denominator
  then fsub fone (fdiv numerator denominator)
  else if ~~ is_zero numerator then fzero
  else fone.

(** No entry is [nan] or infinite. *)
Definition all_finite (n : nat) (v : 'cV[K]_n) : bool :=
  [forall i, isfinite (v i 0)].

(** [sklearn.metrics.r2_score(y, predictions)]: input validation raises
    [ValueError] for inconsistent lengths, for no sample, for an entry
    that is [nan] or infinite and for a prediction that is not a float
    vector; fewer than two samples give [nan] (with a warning). *)
Definition r2_score (y : nat) (predictions : pyarray) : M pyfloat :=
  yv <- load_vec y ;;
  match predictions with
  | EmptyObject _ => raise ValueError
  | FloatVec l =>
      pv <- load_vec l ;;
      if as_len (vlen yv) pv is Some yhat
      then if (vlen yv == 0)%N then raise ValueError
           else if ~~ (all_finite (vdata yv) && all_finite yhat)
           then raise ValueError
           else if (vlen yv < 2)%N then ret NaN
           else ret (Float (r2 (vdata yv) yhat))
      else raise ValueError
  end.

(** ** class RidgeRegression *)

(** [self.alpha], [self.coef_], [self.intercept_] *)
Definition getattr {A : Type} (self : nat) (field : estimator -> A) : M A :=
  e <- load_obj self ;; ret (field e).

Definition setattr_alpha (self : nat) (v : K) : M unit :=
  e <- load_obj self ;;
  store_obj self (Estimator v (coef_ e) (intercept_ e)).

Definition setattr_coef (self : nat) (c : nat) : M unit :=
  e <- load_obj self ;;
  store_obj self (Estimator (alpha e) (Some c) (intercept_ e)).

Definition setattr_intercept (self : nat) (b : K) : M unit :=
  e <- load_obj self ;;
  store_obj self (Estimator (alpha e) (coef_ e) (Some b)).

(** [RidgeRegression(alpha)]; the default of [alpha] is [1.0]. *)
Definition init (a : K) : M nat := alloc_obj (Estimator a None None).

Definition default_alpha : K := fone.

(** [def fit(self, X, y)] *)
Definition fit (self X y : nat) : M unit :=
  X0 <- ndarray_copy X ;;                  (* X_ = X.copy() *)
  n <- shape0 X0 ;;
  ones <- np_ones n 1 ;;
  X_ <- np_hstack ones X0 ;;               (* X_ = np.hstack([ones, X_]) *)
  k <- shape1 X_ ;;
  I <- np_identity k ;;                    (* I = np.identity(X_.shape[1]) *)
  setitem I 0 0 fzero ;;;                  (* I[0, 0] = 0 *)
  Xt <- transpose X_ ;;
  G <- matmul Xt X_ ;;                     (* X_.T @ X_ *)
  a <- getattr self alpha ;;
  aI <- scalar_mul a I ;;                  (* self.alpha * I *)
  S <- np_add G aI ;;
  Sinv <- linalg_inv S ;;                  (* np.linalg.inv(...) *)
  Xt' <- transpose X_ ;;
  B <- matmul Sinv Xt' ;;                  (* ... @ X_.T *)
  w <- matvec B y ;;                       (* ... @ y *)
  w0 <- getitem0 w ;;
  setattr_intercept self w0 ;;;            (* self.intercept_ = w[0] *)
  w1 <- slice_from1 w ;;
  setattr_coef self w1.                    (* self.coef_ = w[1:] *)

(** [def predict(self, X)] *)
Definition predict (self X : nat) : M pyarray :=
  c <- getattr self coef_ ;;
  z <- ndarray_dot X c ;;
  b <- getattr self intercept_ ;;
  add_scalar z b.

(** [def score(self, X, y)] *)
Definition score (self X y : nat) : M pyfloat :=
  c <- getattr self coef_ ;;
  z <- ndarray_dot X c ;;
  b <- getattr self intercept_ ;;
  predictions <- add_scalar z b ;;
  r2_score y predictions.

(** [def get_params(self, deep=True)]: the dictionary [{"alpha": self.alpha}],
    as its list of items. *)
Definition get_params (self : nat) : M (seq (string * K)) :=
  a <- getattr self alpha ;;
  ret [:: ("alpha"%string, a)].

(** The loop [for k, v in params.items()] of [set_params]. *)
Fixpoint set_params_items (self : nat) (items : seq (string * K)) : M unit :=
  match items with
  | [::] => ret tt
  | (k, v) :: items' =>
      (if String.eqb k "alpha" then setattr_alpha self v else ret tt) ;;;
      set_params_items self items'
  end.

(** [def set_params(self, **params)]: returns [self]. *)
Definition set_params (self : nat) (params : seq (string * K)) : M nat :=
  set_params_items self params ;;; ret self.

(** ** What a run of [fit] leaves in the store *)

(** [I] after the assignment [I[0, 0] = 0]. *)
Definition identity0 (p : nat) : 'M[K]_(1 + p) :=
  \matrix_(r, c) if (r == 0%N :> nat) && (c == 0%N :> nat) then fzero
                 else identity (1 + p) r c.

(** [X_] after [np.hstack]. *)
Definition hstacked (n p : nat) (X : 'M[K]_(n, p)) : 'M[K]_(n, 1 + p) :=
  row_mx (const_mx fone : 'M[K]_(n, 1)) X.

(** [X_.T @ X_] *)
Definition gram (n p : nat) (X : 'M[K]_(n, p)) : 'M[K]_(1 + p) :=
  matmul_kernel (hstacked X)^T (hstacked X).

(** The argument of [np.linalg.inv]. *)
Definition inv_arg (n p : nat) (a : K) (X : 'M[K]_(n, p)) : 'M[K]_(1 + p) :=
  added (gram X) (scaled a (identity0 p)).

(** The arrays allocated up to the call of [np.linalg.inv], in order. *)
Definition temps_before_inv (n p : nat) (a : K) (X : 'M[K]_(n, p)) :
    seq matrix :=
  [:: Mat X; Mat (const_mx fone : 'M[K]_(n, 1)); Mat (hstacked X);
      Mat (identity0 p); Mat (hstacked X)^T; Mat (gram X);
      Mat (scaled a (identity0 p)); Mat (inv_arg a X)].

(** Those allocated from there up to the product with [y], when
    [np.linalg.inv] returned [Minv]. *)
Definition temps_after_inv (n p : nat) (Minv : 'M[K]_(1 + p))
    (X : 'M[K]_(n, p)) : seq matrix :=
  [:: Mat Minv; Mat (hstacked X)^T;
      Mat (matmul_kernel Minv (hstacked X)^T)].

(** The value of [w]. *)
Definition fit_weights (n p : nat) (Minv : 'M[K]_(1 + p)) (X : 'M[K]_(n, p))
    (y : 'cV[K]_n) : 'cV[K]_(1 + p) :=
  matvec_kernel (matmul_kernel Minv (hstacked X)^T) y.

(** The value of [X.dot(c) + b]. *)
Definition linear_model (n p : nat) (X : 'M[K]_(n, p)) (c : 'cV[K]_p)
    (b : K) : 'cV[K]_n :=
  shifted (matvec_kernel X c) b.

(** ** Estimator states *)

Definition unfitted (e : estimator) : Prop :=
  coef_ e = None /\ intercept_ e = None.

(** The estimator holds the intercept [b] and the coefficient vector [c]. *)
Definition fitted_with (s : store) (self : nat) (p : nat) (c : 'cV[K]_p)
    (b : K) : Prop :=
  exists e lc,
    [/\ lookup (objs s) self = Some e, coef_ e = Some lc,
        lookup (vecs s) lc = Some (Vec c) & intercept_ e = Some b].

(** The attribute [coef_] of the estimator refers to the array [lc]. *)
Definition coef_at (s : store) (self lc : nat) : Prop :=
  exists2 e, lookup (objs s) self = Some e & coef_ e = Some lc.

(** Length of the coefficient vector, when there is one. *)
Definition coef_length (s : store) (self : nat) : option nat :=
  if lookup (objs s) self is Some e then
    if coef_ e is Some lc then omap vlen (lookup (vecs s) lc) else None
  else None.

(** ** Calls other than [fit] *)

Inductive call : Type :=
  | CallPredict (X : nat)
  | CallScore (X y : nat)
  | CallGetParams
  | CallSetParams (params : seq (string * K)).

(** The store after a call on [self], whatever its outcome. *)
Definition run_call (self : nat) (s : store) (c : call) : store :=
  match c with
  | CallPredict X => (predict self X s).2
  | CallScore X y => (score self X y s).2
  | CallGetParams => (get_params self s).2
  | CallSetParams params => (set_params self params s).2
  end.

(** The value of [alpha] after the items of [params] were gone through,
    starting from [a0]: that of the last item whose key is ["alpha"]. *)
Definition alpha_after (params : seq (string * K)) (a0 : K) : K :=
  foldl (fun a kv => if String.eqb kv.1 "alpha" then kv.2 else a) a0 params.

(** A computation that only allocates vectors. *)
Definition allocates_vectors (A : Type) (m : M A) : Prop :=
  forall s, exists t, (m s).2 = Store (objs s) (mats s) (vecs s ++ t).

(** Every value a computation returns satisfies [P]. *)
Definition returns_only (A : Type) (P : A -> Prop) (m : M A) : Prop :=
  forall s a s', m s = (Return a, s') -> P a.

(** The vectors that [X.dot(self.coef_) + self.intercept_] allocates. *)
Definition predict_temps (n p : nat) (X : 'M[K]_(n, p)) (c : 'cV[K]_p)
    (b : K) : seq vector :=
  [:: Vec (matvec_kernel X c); Vec (linear_model X c b)].

(** The store [s] in which the estimator [e], at [self], has its [alpha]
    replaced by [a]. *)
Definition with_alpha (s : store) (self : nat) (e : estimator) (a : K) :
    store :=
  Store (update (objs s) self (Estimator a (coef_ e) (intercept_ e)))
        (mats s) (vecs s).

(** ** Construction from keyword arguments, and the cells of the notebook *)

(** Binding of the keyword arguments of [__init__(self, alpha=1.0)]: the
    value of [alpha], or nothing when a keyword is not a parameter. *)
Fixpoint alpha_kwarg (kwargs : seq (string * K)) (a : K) : option K :=
  match kwargs with
  | [::] => Some a
  | (k, v) :: kwargs' =>
      if String.eqb k "alpha" then alpha_kwarg kwargs' v else None
  end.

(** The call of [RidgeRegression] with the keyword arguments [kwargs]; an
    unexpected keyword argument is a [TypeError]. *)
Definition construct (kwargs : seq (string * K)) : M nat :=
  if alpha_kwarg kwargs default_alpha is Some a then init a
  else raise TypeError.

(** The call of [type(model)] with the keyword arguments
    [model.get_params()], the way the cross-validation and grid-search
    drivers of scikit-learn copy the estimator they are given before they
    fit it. *)
Definition reconstruct (model : nat) : M nat :=
  params <- get_params model ;; construct params.

(** The cell that calls [model.set_params] with the keyword arguments
    [best_params] and then [model.fit(dev_features, dev_labels)]. *)
Definition fit_best (model : nat) (best_params : seq (string * K))
    (dev_features dev_labels : nat) : M unit :=
  set_params model best_params ;;; fit model dev_features dev_labels.

(** The cells that build, tune and evaluate the model, in order:
    [model = RidgeRegression()], the cell above, then
    [score = model.score(test_features, test_labels)] and
    [test_predictions = model.predict(test_features)].  (The cells in
    between run the drivers of scikit-learn on copies of the model;
    [best_params] is what they report.) *)
Definition notebook_run (best_params : seq (string * K))
    (dev_features dev_labels test_features test_labels : nat) :
    M (nat * pyfloat * pyarray) :=
  model <- init default_alpha ;;
  fit_best model best_params dev_features dev_labels ;;;
  sc <- score model test_features test_labels ;;
  test_predictions <- predict model test_features ;;
  ret (model, sc, test_predictions).

End Model.

Arguments NaN {K}.

(** ** The regularized normal equations, as the specification words them *)

Section Specification.

Variable R : realFieldType.

(** [X] with a column of ones prepended. *)
Definition augmented (n p : nat) (X : 'M[R]_(n, p)) : 'M[R]_(n, 1 + p) :=
  row_mx (const_mx 1) X.

(** [alpha * I], except that the entry [(0, 0)] is zero. *)
Definition penalty (p : nat) (a : R) : 'M[R]_(1 + p) :=
  \matrix_(i, j) if (i == 0) && (j == 0) then 0 else (a *: 1%:M) i j.

Definition normal_matrix (n p : nat) (a : R) (X : 'M[R]_(n, p)) :
    'M[R]_(1 + p) :=
  (augmented X)^T *m augmented X + penalty p a.

Definition normal_rhs (n p : nat) (X : 'M[R]_(n, p)) (y : 'cV[R]_n) :
    'cV[R]_(1 + p) :=
  (augmented X)^T *m y.

(** [w] is the one solution of the normal equations for [a], [X], [y]. *)
Definition unique_solution (n p : nat) (a : R) (X : 'M[R]_(n, p))
    (y : 'cV[R]_n) (w : 'cV[R]_(1 + p)) : Prop :=
  normal_matrix a X *m w = normal_rhs X y /\
  forall w' : 'cV[R]_(1 + p),
    normal_matrix a X *m w' = normal_rhs X y -> w' = w.

(** ** Exact arithmetic *)

(** The arithmetic of the ordered field [R]: nothing is rounded, every
    number is finite, the products are the products of matrices and the
    inverse kernel fails exactly on the singular matrices. *)
Definition exact : arithmetic :=
  {| num := R; fzero := 0; fone := 1; of_count := fun n => n%:R;
     fadd := fun x y => x + y; fsub := fun x y => x - y;
     fmul := fun x y => x * y; fdiv := fun x y => x / y;
     is_zero := fun x => x == 0; isfinite := fun _ => true;
     matmul_kernel := fun m n p (A : 'M[R]_(m, n)) (B : 'M[R]_(n, p)) =>
                        A *m B;
     matvec_kernel := fun m n (A : 'M[R]_(m, n)) (v : 'cV[R]_n) => A *m v;
     inv_kernel := fun n (A : 'M[R]_n) =>
                     if A \in unitmx then Some (invmx A) else None;
     sum_kernel := fun n (v : 'cV[R]_n) => \sum_i v i 0 |}.

(** A float that is not above one, or [nan]. *)
Definition at_most_one (f : pyfloat exact) : Prop :=
  if f is Float x then (x : R) <= 1 else True.

End Specification.

(** ** IEEE doubles *)

(** The binary64 format: 53 bits of precision, exponents below 1024;
    operations round to nearest, ties to even. *)
Definition prec : Z := 53%Zb.
Definition emax : Z := 1024%Zb.

(** The double nearest to [m * 2 ^ e]. *)
Definition b64_of_Z (m e : Z) : spec_float :=
  binary_normalize prec emax m e false.

Definition b64_zero : spec_float := S754_zero false.
Definition b64_one : spec_float := b64_of_Z 1%Zb 0%Zb.
Definition b64_add : spec_float -> spec_float -> spec_float :=
  SFadd prec emax.
Definition b64_sub : spec_float -> spec_float -> spec_float :=
  SFsub prec emax.
Definition b64_mul : spec_float -> spec_float -> spec_float :=
  SFmul prec emax.
Definition b64_div : spec_float -> spec_float -> spec_float :=
  SFdiv prec emax.
Definition b64_is_zero (x : spec_float) : bool := SFeqb x b64_zero.
Definition b64_isfinite (x : spec_float) : bool :=
  match x with
  | S754_zero _ | S754_finite _ _ _ => true
  | S754_infinity _ | S754_nan => false
  end.

(** The rational that a finite double stands for. *)
Definition int_of_Z (z : Z) : int :=
  match z with
  | Z0 => 0
  | Zpos q => Posz (Pos.to_nat q)
  | Zneg q => - Posz (Pos.to_nat q)
  end.

Definition value (x : spec_float) : rat :=
  match x with
  | S754_finite s m e =>
      (if s then -1 else 1) * (Pos.to_nat m)%:R * 2%:R ^ int_of_Z e
  | _ => 0
  end.

Section Folds.
Variable T : Type.

(** [f (... (f (f z 0) 1) ...) (n - 1)]: a loop over the indices below
    [n], in increasing order. *)
Fixpoint foldl_ord (n : nat) : (T -> 'I_n -> T) -> T -> T :=
  match n with
  | 0%N => fun _ z => z
  | n'.+1 => fun f z =>
      f (foldl_ord (fun t i => f t (widen_ord (leqnSn n') i)) z) ord_max
  end.

End Folds.

(** The kernels in doubles.  A sum is accumulated from [0.0], term
    after term, and each product is rounded before it is added.  A BLAS
    may add the terms in another order or fuse a product with the
    addition that follows, which can change the last bit of a result.
    The arrays evaluated below have at most two rows and two columns and
    small integer entries: every sum in their products is exact, whatever
    the order.  In their factorizations one step is rounded, the second
    pivot [49 - (1 / 49) * 2401]; it is not zero, fused or not, since
    [1 / 49] is not a double. *)

(** A sum accumulated from [0.0], term after term. *)
Definition b64_accumulate (n : nat) (f : 'I_n -> spec_float) : spec_float :=
  foldl_ord (fun acc i => b64_add acc (f i)) b64_zero.

(** The products, every entry an accumulated sum of products. *)
Definition b64_matmul (m n p : nat) (A : 'M[spec_float]_(m, n))
    (B : 'M[spec_float]_(n, p)) : 'M[spec_float]_(m, p) :=
  \matrix_(i, k) b64_accumulate (fun j => b64_mul (A i j) (B j k)).

Definition b64_matvec (m n : nat) (A : 'M[spec_float]_(m, n))
    (v : 'cV[spec_float]_n) : 'cV[spec_float]_m :=
  \col_i b64_accumulate (fun j => b64_mul (A i j) (v j 0)).

Definition b64_sum (n : nat) (v : 'cV[spec_float]_n) : spec_float :=
  b64_accumulate (fun i => v i 0).

(** *** The LAPACK routine behind [np.linalg.inv]

    [np.linalg.inv(a)] solves [a x = I] with [gesv]: an LU factorization
    with partial pivoting ([getrf]), then a forward and a backward
    substitution ([getrs]).  NumPy raises [LinAlgError] when the
    factorization reports a pivot that is exactly zero. *)

(** The row of the pivot: the first entry of largest magnitude in the
    first column. *)
Definition pivot_row (n : nat) (A : 'M[spec_float]_(n.+1, n.+1)) : 'I_n.+1 :=
  foldl_ord
    (fun k i => if SFltb (SFabs (A k 0)) (SFabs (A i 0)) then i else k) ord0.

(** Rows [0] and [k] exchanged. *)
Definition swap_rows (m n : nat) (k : 'I_m.+1) (A : 'M[spec_float]_(m.+1, n)) :
    'M[spec_float]_(m.+1, n) :=
  \matrix_(i, j)
    A (if (i == 0%N :> nat) then k else if i == k then ord0 else i) j.

(** The pivot itself. *)
Definition pivot (n : nat) (A : 'M[spec_float]_(n.+1, n.+1)) : spec_float :=
  A (pivot_row A) ord0.

(** The smallest double whose reciprocal does not overflow. *)
Definition sfmin : spec_float := b64_of_Z 1%Zb (-1022)%Zb.

(** The column [c] divided by the pivot: multiplied by its reciprocal
    unless the pivot is tiny. *)
Definition multipliers (n : nat) (pv : spec_float) (c : 'cV[spec_float]_n) :
    'cV[spec_float]_n :=
  \col_i (if SFltb (SFabs pv) sfmin then b64_div (c i 0) pv
          else b64_mul (c i 0) (b64_div b64_one pv)).

(** [rest - l * top]: the multiples [l] of the row [top] subtracted from
    the rows of [rest]. *)
Definition eliminate (n m : nat) (l : 'cV[spec_float]_n)
    (top : 'rV[spec_float]_m) (rest : 'M[spec_float]_(n, m)) :
    'M[spec_float]_(n, m) :=
  \matrix_(i, j) b64_sub (rest i j) (b64_mul (l i 0) (top 0 j)).

(** What is left to factor once the first column is eliminated. *)
Definition schur (n : nat) (A : 'M[spec_float]_(1 + n)) : 'M[spec_float]_n :=
  let A1 : 'M_(1 + n) := swap_rows (pivot_row A) A in
  eliminate (multipliers (pivot A) (dlsubmx A1)) (ursubmx A1) (drsubmx A1).

(** The first row of the solution, once the others, [X2], are known:
    their multiples are subtracted from the right-hand side, last row
    first, and the result is divided by the pivot. *)
Definition back_substitute (n m : nat) (pv : spec_float)
    (u : 'rV[spec_float]_n) (b : 'rV[spec_float]_m)
    (X2 : 'M[spec_float]_(n, m)) : 'rV[spec_float]_m :=
  \row_j b64_div
           (foldl_ord
              (fun acc t =>
                 b64_sub acc (b64_mul (u 0 (rev_ord t)) (X2 (rev_ord t) j)))
              (b 0 j))
           pv.

(** The solution [X] of [A X = B], or nothing when a pivot is zero. *)
Fixpoint lu_solve (n m : nat) :
    'M[spec_float]_n -> 'M[spec_float]_(n, m) ->
    option 'M[spec_float]_(n, m) :=
  match n with
  | 0%N => fun _ B => Some B
  | n'.+1 => fun (A : 'M_(1 + n')) (B : 'M_(1 + n', m)) =>
      if b64_is_zero (pivot A) then None
      else
        let A1 : 'M_(1 + n') := swap_rows (pivot_row A) A in
        let B1 : 'M_(1 + n', m) := swap_rows (pivot_row A) B in
        let l := multipliers (pivot A) (dlsubmx A1) in
        if lu_solve (schur A) (eliminate l (usubmx B1) (dsubmx B1))
          is Some X2
        then Some (col_mx (back_substitute (pivot A) (ursubmx A1)
                             (usubmx B1) X2) X2 : 'M_(1 + n', m))
        else None
  end.

(** In a matrix of order two: whether the rows are exchanged, and the
    second pivot. *)
Definition exchanged (A : 'M[spec_float]_(1 + 1)) : bool :=
  SFltb (SFabs (A ord0 ord0)) (SFabs (A ord_max ord0)).

Definition second_pivot (A : 'M[spec_float]_(1 + 1)) : spec_float :=
  schur A ord0 ord0.

Definition b64_identity (n : nat) : 'M[spec_float]_n :=
  \matrix_(i, j) if i == j then b64_one else b64_zero.

Definition b64_inv (n : nat) (A : 'M[spec_float]_n) :
    option 'M[spec_float]_n :=
  lu_solve A (b64_identity n).

(** The arithmetic of NumPy on IEEE doubles. *)
Definition binary64 : arithmetic :=
  {| num := spec_float; fzero := b64_zero; fone := b64_one;
     of_count := fun n => b64_of_Z (Z.of_nat n) 0%Zb;
     fadd := b64_add; fsub := b64_sub; fmul := b64_mul; fdiv := b64_div;
     is_zero := b64_is_zero; isfinite := b64_isfinite;
     matmul_kernel := b64_matmul; matvec_kernel := b64_matvec;
     inv_kernel := b64_inv; sum_kernel := b64_sum |}.

(** ** Concrete arrays and stores *)

(** The double of an integer. *)
Definition fl (z : Z) : binary64 := b64_of_Z z 0%Zb.

(** The array of shape [(m, n)] with the given rows, and the
    one-dimensional array with the given entries. *)
Definition b64_matrix (m n : nat) (rows : seq (seq spec_float)) :
    'M[binary64]_(m, n) :=
  \matrix_(i, j) nth b64_zero (nth [::] rows i) j.

Definition b64_vector (n : nat) (entries : seq spec_float) :
    'cV[binary64]_n :=
  \col_i nth b64_zero entries i.

(** An estimator as built by [RidgeRegression(alpha=a)], a design matrix
    and a target. *)
Definition fresh_store (a : spec_float) (n p : nat) (X : 'M[binary64]_(n, p))
    (m : nat) (y : 'cV[binary64]_m) : store binary64 :=
  Store [:: @Estimator binary64 a None None] [:: Mat X] [:: Vec y].

(** A fitted estimator with intercept [b] and coefficients [c], a design
    matrix and a target. *)
Definition fitted_store (b : spec_float) (p : nat) (c : 'cV[binary64]_p)
    (n q : nat) (X : 'M[binary64]_(n, q)) (m : nat) (y : 'cV[binary64]_m) :
    store binary64 :=
  Store [:: @Estimator binary64 b64_one (Some 1%N) (Some b)]
        [:: Mat X] [:: Vec y; Vec c].

(** [alpha = 2 ** -54], below half the distance from [2.0] to the next
    double. *)
Definition tiny_alpha : binary64 := b64_of_Z 1%Zb (-54)%Zb.

(** Two samples of one feature: [[1], [1]] and [[1], [-1]]. *)
Definition equal_samples : 'M[binary64]_(2, 1) :=
  b64_matrix 2 1 [:: [:: fl 1]; [:: fl 1]].

Definition opposite_samples : 'M[binary64]_(2, 1) :=
  b64_matrix 2 1 [:: [:: fl 1]; [:: fl (-1)]].

(** One sample of one feature: [[49]] and [[0]]. *)
Definition sample49 : 'M[binary64]_(1, 1) := b64_matrix 1 1 [:: [:: fl 49]].

Definition sample0 : 'M[binary64]_(1, 1) := b64_matrix 1 1 [:: [:: fl 0]].

(** Two samples of one feature [0]; no sample at all; one coefficient
    [0]; the samples [1, 2] of two features. *)
Definition zero_samples : 'M[binary64]_(2, 1) :=
  b64_matrix 2 1 [:: [:: fl 0]; [:: fl 0]].

Definition no_sample : 'M[binary64]_(0, 1) := b64_matrix 0 1 [::].

Definition coef0 : 'cV[binary64]_1 := b64_vector 1 [:: fl 0].

Definition wide_sample : 'M[binary64]_(1, 2) :=
  b64_matrix 1 2 [:: [:: fl 1; fl 2]].

(** Targets. *)
Definition targets01 : 'cV[binary64]_2 := b64_vector 2 [:: fl 0; fl 1].
Definition targets13 : 'cV[binary64]_2 := b64_vector 2 [:: fl 1; fl 3].
Definition targets00 : 'cV[binary64]_2 := b64_vector 2 [:: fl 0; fl 0].
Definition target1 : 'cV[binary64]_1 := b64_vector 1 [:: fl 1].
Definition targets135 : 'cV[binary64]_3 :=
  b64_vector 3 [:: fl 1; fl 3; fl 5].
Definition no_target : 'cV[binary64]_0 := b64_vector 0 [::].

(** ** Concrete stores in exact arithmetic, over the rationals *)

(** The targets [0, 1]. *)
Definition ramp : 'cV[rat]_2 := \col_i (i : nat)%:R.

(** A fitted estimator, intercept [0] and one coefficient [0]; two samples
    of one feature [0]; the targets [0, 1]. *)
Definition fitted_ramp_store : store (exact rat) :=
  Store [:: @Estimator (exact rat) 1 (Some 1%N) (Some 0)]
        [:: @Mat (exact rat) 2 1 0]
        [:: @Vec (exact rat) 2 ramp; @Vec (exact rat) 1 0].

(** No estimator yet; a development set of one sample and a test set of
    two, with one all-zero feature. *)
Definition notebook_store : store (exact rat) :=
  Store [::]
        [:: @Mat (exact rat) 1 1 0; @Mat (exact rat) 2 1 0]
        [:: @Vec (exact rat) 1 0; @Vec (exact rat) 2 ramp].

(** * Properties *)

(** ** Store cells *)

Section CellLemmas.
Variable T : Type.
Implicit Types (s t : seq T) (l i : nat) (x : T).

Lemma lookup_size s l x : lookup s l = Some x -> (l < size s)%N.
Proof. by elim: s l => [|y s IH] [|l] //= /IH. Qed.

Lemma lookup_cat_l s t l x :
  lookup s l = Some x -> lookup (s ++ t) l = Some x.
Proof. by elim: s l => [|y s IH] [|l] //= /IH. Qed.

Lemma lookup_cat_r s t i : lookup (s ++ t) (size s + i) = lookup t i.
Proof. by elim: s => [|y s IH]. Qed.

Lemma lookup_cat_size s t x : lookup (s ++ x :: t) (size s) = Some x.
Proof. by rewrite -[size s]addn0 lookup_cat_r. Qed.

Lemma size_update s l x : size (update s l x) = size s.
Proof. by elim: s l => [|y s IH] [|l] //=; rewrite IH. Qed.

Lemma lookup_update_same s l x :
  (l < size s)%N -> lookup (update s l x) l = Some x.
Proof. by elim: s l => [|y s IH] [|l] //= /IH. Qed.

Lemma lookup_update_other s l l' x :
  l != l' -> lookup (update s l x) l' = lookup s l'.
Proof.
elim: s l l' => [|y s IH] [|l] [|l'] //= ne.
by apply: IH; apply: contra ne => /eqP ->.
Qed.

Lemma update_cat_r s t i x :
  update (s ++ t) (size s + i) x = s ++ update t i x.
Proof. by elim: s => [|y s IH] //=; rewrite IH. Qed.

Lemma update_update s l x x' : update (update s l x) l x' = update s l x'.
Proof. by elim: s l => [|y s IH] [|l] //=; rewrite IH. Qed.

Lemma update_same s l x : lookup s l = Some x -> update s l x = s.
Proof. by elim: s l => [|y s IH] [|l] //= => [[->]|/IH ->]. Qed.

End CellLemmas.


Section Properties.

Variable K : arithmetic.
Implicit Types (s : store K) (self lX ly : nat) (e : estimator K).

Lemma as_shape_id m n (A : 'M[K]_(m, n)) : as_shape m n (Mat A) = Some A.
Proof.
rewrite /as_shape /=; case: eqP => // em; case: eqP => // en.
by rewrite (eq_axiomK em) (eq_axiomK en) castmx_id.
Qed.

Lemma as_len_id n (v : 'cV[K]_n) : as_len n (Vec v) = Some v.
Proof.
by rewrite /as_len /=; case: eqP => // e; rewrite (eq_axiomK e) castmx_id.
Qed.

Lemma as_len_neq n (v : vector K) : vlen v != n -> as_len n v = None.
Proof. by rewrite /as_len; case: eqP. Qed.

Lemma vget0 p (w : 'cV[K]_(1 + p)) : vget (Vec w) 0 = w 0 0.
Proof. by rewrite /vget insubT /=; congr (w _ _); exact: val_inj. Qed.

Lemma slice_dsubmx p (w : 'cV[K]_(1 + p)) :
  \col_(i < p) vget (Vec w) i.+1 = dsubmx w.
Proof.
apply/colP => i; rewrite !mxE /vget /=.
have lt_i : (i.+1 < 1 + p)%N by rewrite add1n ltnS.
by rewrite insubT; congr (w _ _); exact: val_inj.
Qed.

Ltac heap_norm :=
  repeat progress
    (rewrite -?cats1 -?catA /= ?size_cat /= ?ltn_add2l ?update_cat_r
             ?lookup_cat_r ?lookup_cat_size /= ?as_shape_id ?as_len_id /=).

(** Symbolic execution of [fit] up to the call of [np.linalg.inv]. *)
Ltac run_fit_prefix He HX :=
  rewrite /fit /ndarray_copy /bind /load_mat /= HX /=;
  rewrite /shape0 /bind /load_mat /=; heap_norm;
  rewrite /np_hstack /bind /load_mat /=; heap_norm;
  rewrite /shape1 /bind /load_mat /=; heap_norm;
  rewrite /setitem /bind /load_mat /store_mat /=; heap_norm;
  rewrite /transpose /bind /load_mat /=; heap_norm;
  rewrite /matmul /bind /load_mat /=; heap_norm;
  rewrite /getattr /bind /load_obj /= He /=;
  rewrite /scalar_mul /bind /load_mat /=; heap_norm;
  rewrite /np_add /bind /load_mat /=; heap_norm;
  rewrite /linalg_inv /bind /load_mat /=; heap_norm;
  rewrite -/(hstacked _) -/(identity0 _ _) -/(gram _) -/(inv_arg _ _).

Ltac run_fit_suffix :=
  rewrite /alloc_mat /=; heap_norm;
  rewrite /transpose /bind /load_mat /=; heap_norm;
  rewrite /matmul /bind /load_mat /=; heap_norm;
  rewrite /matvec /bind /load_mat /load_vec /=; heap_norm.

(** The three ways a call of [fit] ends. *)
Lemma fit_inv_raises s self lX ly e n p (X : 'M[K]_(n, p)) :
  lookup (objs s) self = Some e ->
  lookup (mats s) lX = Some (Mat X) ->
  inv_kernel (inv_arg (alpha e) X) = None ->
  fit self lX ly s =
    (Raise LinAlgError,
     Store (objs s) (mats s ++ temps_before_inv (alpha e) X) (vecs s)).
Proof.
case: s => so sm sv /= He HX sing.
by run_fit_prefix He HX; rewrite sing.
Qed.

Lemma fit_mismatch s self lX ly e n p m (X : 'M[K]_(n, p)) (y : 'cV[K]_m)
    (Minv : 'M[K]_(1 + p)) :
  lookup (objs s) self = Some e ->
  lookup (mats s) lX = Some (Mat X) ->
  lookup (vecs s) ly = Some (Vec y) ->
  inv_kernel (inv_arg (alpha e) X) = Some Minv ->
  m != n ->
  fit self lX ly s =
    (Raise ValueError,
     Store (objs s)
       (mats s ++ temps_before_inv (alpha e) X ++ temps_after_inv Minv X)
       (vecs s)).
Proof.
case: s => so sm sv /= He HX Hy reg ne_mn.
run_fit_prefix He HX; rewrite reg; run_fit_suffix.
by rewrite Hy /= as_len_neq.
Qed.

Lemma fit_ok s self lX ly e n p (X : 'M[K]_(n, p)) (y : 'cV[K]_n)
    (Minv : 'M[K]_(1 + p)) :
  lookup (objs s) self = Some e ->
  lookup (mats s) lX = Some (Mat X) ->
  lookup (vecs s) ly = Some (Vec y) ->
  inv_kernel (inv_arg (alpha e) X) = Some Minv ->
  let w := fit_weights Minv X y in
  fit self lX ly s =
    (Return tt,
     Store (update (objs s) self
              (Estimator (alpha e) (Some (size (vecs s) + 1)) (Some (w 0 0))))
       (mats s ++ temps_before_inv (alpha e) X ++ temps_after_inv Minv X)
       (vecs s ++ [:: Vec w; Vec (dsubmx w)])).
Proof.
case: s => so sm sv /= He HX Hy reg.
run_fit_prefix He HX; rewrite reg; run_fit_suffix.
rewrite Hy /=; heap_norm.
rewrite /getitem0 /bind /load_vec /=; heap_norm.
rewrite /setattr_intercept /bind /load_obj /store_obj /= He /=.
rewrite (lookup_size He) /=.
rewrite /slice_from1 /bind /load_vec /=; heap_norm.
rewrite /setattr_coef /bind /load_obj /store_obj /=.
rewrite lookup_update_same ?size_update ?(lookup_size He) //= update_update.
by rewrite -/(fit_weights _ _ _) vget0 (slice_dsubmx (fit_weights _ _ _)).
Qed.

(** A call of [fit] whose target array does not exist. *)
Lemma fit_dangling s self lX ly e n p (X : 'M[K]_(n, p))
    (Minv : 'M[K]_(1 + p)) :
  lookup (objs s) self = Some e ->
  lookup (mats s) lX = Some (Mat X) ->
  lookup (vecs s) ly = None ->
  inv_kernel (inv_arg (alpha e) X) = Some Minv ->
  (fit self lX ly s).1 = Stuck.
Proof.
case: s => so sm sv /= He HX Hy reg.
run_fit_prefix He HX; rewrite reg; run_fit_suffix.
by rewrite Hy.
Qed.

(** ** The fitted state *)

Lemma fit_ok_fitted s self lX ly e n p (X : 'M[K]_(n, p)) (y : 'cV[K]_n)
    (Minv : 'M[K]_(1 + p)) :
  lookup (objs s) self = Some e ->
  lookup (mats s) lX = Some (Mat X) ->
  lookup (vecs s) ly = Some (Vec y) ->
  inv_kernel (inv_arg (alpha e) X) = Some Minv ->
  let w := fit_weights Minv X y in
  fitted_with (fit self lX ly s).2 self (dsubmx w) (w 0 0).
Proof.
move=> He HX Hy reg w; rewrite (fit_ok He HX Hy reg) /=.
exists (Estimator (alpha e) (Some (size (vecs s) + 1)%N) (Some (w 0 0))).
exists (size (vecs s) + 1)%N; split=> //=.
  by rewrite lookup_update_same // (lookup_size He).
by rewrite lookup_cat_r.
Qed.

(** A call of [fit] never ends in [LinAlgError] once [np.linalg.inv]
    returned. *)
Lemma fit_inv_returns s self lX ly e n p (X : 'M[K]_(n, p))
    (Minv : 'M[K]_(1 + p)) :
  lookup (objs s) self = Some e ->
  lookup (mats s) lX = Some (Mat X) ->
  inv_kernel (inv_arg (alpha e) X) = Some Minv ->
  (fit self lX ly s).1 <> Raise LinAlgError.
Proof.
move=> He HX reg.
case Hy: (lookup (vecs s) ly) => [[m y]|]; last first.
  by rewrite (fit_dangling He HX Hy reg).
case: (m =P n) => [emn | /eqP ne_mn]; last first.
  by rewrite (fit_mismatch He HX Hy reg ne_mn).
by move: y Hy; rewrite emn => y Hy; rewrite (fit_ok He HX Hy reg).
Qed.

(** With exact operations the weights are the solution of the normal
    equations: [val] reads the entries as elements of an ordered field;
    the matrix handed to [np.linalg.inv] is the normal matrix, the array
    it returned is an inverse and the two products were not rounded. *)
Lemma exact_run_solves (R : realFieldType) (val : K -> R) n p (a : K)
    (X : 'M[K]_(n, p)) (y : 'cV[K]_n) (Minv : 'M[K]_(1 + p))
    (w : 'cV[K]_(1 + p)) :
  map_mx val (inv_arg a X) = normal_matrix (val a) (map_mx val X) ->
  map_mx val Minv *m map_mx val (inv_arg a X) = 1%:M ->
  map_mx val w = map_mx val Minv *m normal_rhs (map_mx val X) (map_mx val y) ->
  unique_solution (val a) (map_mx val X) (map_mx val y) (map_mx val w).
Proof.
move=> -> inv_l ->; have [_ reg] := mulmx1_unit inv_l.
have eq_inv : map_mx val Minv = invmx (normal_matrix (val a) (map_mx val X)).
  by rewrite -[LHS]mulmx1 -(mulmxV reg) mulmxA inv_l mul1mx.
by rewrite eq_inv; split=> [| w' <-]; rewrite ?mulKVmx ?mulKmx.
Qed.

(** C1 (amended): whenever [np.linalg.inv] returns on the matrix that
    [fit(X, y)] computed for [X_.T @ X_ + alpha * I], and [y] has as many
    entries as [X] has rows, [fit] returns and the estimator then holds
    [w[0]] as intercept and [w[1:]] as coefficients, where [w] is the
    array computed for [inv(...) @ X_.T @ y].  That [w] is the unique
    solution of the normal equations [M * w = augmented X ^T * y] as far
    as the operations of the run were exact.  (The bounds [n >= 1] and
    [p >= 1] of the specification are not needed.) *)
Theorem fit_solves_normal_equations s self lX ly e n p
    (X : 'M[K]_(n, p)) (y : 'cV[K]_n) (Minv : 'M[K]_(1 + p)) :
  lookup (objs s) self = Some e ->
  lookup (mats s) lX = Some (Mat X) ->
  lookup (vecs s) ly = Some (Vec y) ->
  inv_kernel (inv_arg (alpha e) X) = Some Minv ->
  let w := matvec_kernel (matmul_kernel Minv (hstacked X)^T) y in
  (exists s' : store K,
     fit self lX ly s = (Return tt, s') /\
     fitted_with s' self (dsubmx w) (w 0 0))
  /\
  (forall (R : realFieldType) (val : K -> R),
     map_mx val (inv_arg (alpha e) X) =
       normal_matrix (val (alpha e)) (map_mx val X) ->
     map_mx val Minv *m map_mx val (inv_arg (alpha e) X) = 1%:M ->
     map_mx val w =
       map_mx val Minv *m normal_rhs (map_mx val X) (map_mx val y) ->
     unique_solution (val (alpha e)) (map_mx val X) (map_mx val y)
       (map_mx val w)).
Proof.
move=> He HX Hy reg w; split; last by move=> R val; exact: exact_run_solves.
exists (fit self lX ly s).2; split; first by rewrite (fit_ok He HX Hy reg).
exact: (fit_ok_fitted He HX Hy reg).
Qed.

(** C2 (amended): [fit] raises [LinAlgError] (the code's singular-matrix
    error) exactly when [np.linalg.inv] fails on the matrix that [fit]
    computed; nothing is computed in its place: the estimator and every
    vector of the store are as before the call.  When [np.linalg.inv]
    returns, whatever the matrix, [fit] does not raise [LinAlgError].
    The routine fails at least on a matrix whose first column is zero. *)
Theorem fit_singular_raises s self lX ly e n p (X : 'M[K]_(n, p)) :
  lookup (objs s) self = Some e ->
  lookup (mats s) lX = Some (Mat X) ->
  [/\ inv_kernel (inv_arg (alpha e) X) = None ->
      exists s' : store K,
        [/\ fit self lX ly s = (Raise LinAlgError, s'),
            objs s' = objs s & vecs s' = vecs s],
      forall Minv : 'M[K]_(1 + p),
        inv_kernel (inv_arg (alpha e) X) = Some Minv ->
        (fit self lX ly s).1 <> Raise LinAlgError
    & lawful K ->
      (forall i, is_zero (inv_arg (alpha e) X i ord0)) ->
      (fit self lX ly s).1 = Raise LinAlgError].
Proof.
move=> He HX; split=> [sing | Minv | laws col0].
- by rewrite (fit_inv_raises ly He HX sing); eexists; split.
- exact: fit_inv_returns.
- by rewrite (fit_inv_raises ly He HX (inv_zero_column laws col0)).
Qed.

(** C6: a call of [fit] either returns with both [intercept_] and [coef_]
    set to the new solution, or raises with every estimator, hence the
    previously fitted intercept and coefficient reference, and every
    vector of the store exactly as before the call. *)
Theorem fit_all_or_nothing s self lX ly e n p m
    (X : 'M[K]_(n, p)) (y : 'cV[K]_m) :
  lookup (objs s) self = Some e ->
  lookup (mats s) lX = Some (Mat X) ->
  lookup (vecs s) ly = Some (Vec y) ->
  (exists (w : 'cV[K]_(1 + p)) (s' : store K),
     fit self lX ly s = (Return tt, s') /\
     fitted_with s' self (dsubmx w) (w 0 0))
  \/
  (exists (ex : exn) (s' : store K),
     [/\ fit self lX ly s = (Raise ex, s'), objs s' = objs s
       & vecs s' = vecs s]).
Proof.
move=> He HX Hy.
case reg: (inv_kernel (inv_arg (alpha e) X)) => [Minv|]; last first.
  right; exists LinAlgError; eexists.
  by rewrite (fit_inv_raises ly He HX reg); split.
case: (m =P n) => [emn | /eqP ne_mn]; last first.
  right; exists ValueError; eexists.
  by rewrite (fit_mismatch He HX Hy reg ne_mn); split.
move: y Hy; rewrite emn => y Hy; left.
exists (fit_weights Minv X y), (fit self lX ly s).2; split.
  by rewrite (fit_ok He HX Hy reg).
exact: (fit_ok_fitted He HX Hy reg).
Qed.

(** C7: whatever the outcome of [fit(X, y)], the arrays [X] and [y] of the
    caller, and every array that existed before the call, hold the same
    entries afterwards; [alpha] is unchanged and so is every other
    estimator.  The only array written in place is the identity matrix
    that [fit] allocated itself. *)
Theorem fit_frame s self lX ly e n p m (X : 'M[K]_(n, p)) (y : 'cV[K]_m) :
  lookup (objs s) self = Some e ->
  lookup (mats s) lX = Some (Mat X) ->
  lookup (vecs s) ly = Some (Vec y) ->
  let s' := (fit self lX ly s).2 in
  [/\ lookup (mats s') lX = Some (Mat X),
      lookup (vecs s') ly = Some (Vec y),
      exists2 e', lookup (objs s') self = Some e' & alpha e' = alpha e
    & [/\ forall l A,
            lookup (mats s) l = Some A -> lookup (mats s') l = Some A,
          forall l v,
            lookup (vecs s) l = Some v -> lookup (vecs s') l = Some v
        & forall o e0, o != self ->
            lookup (objs s) o = Some e0 -> lookup (objs s') o = Some e0]].
Proof.
move=> He HX Hy.
case reg: (inv_kernel (inv_arg (alpha e) X)) => [Minv|]; last first.
  rewrite (fit_inv_raises ly He HX reg) /=; split=> //.
  - exact: lookup_cat_l.
  - by exists e.
  - by split=> // l A; exact: lookup_cat_l.
case: (m =P n) => [emn | /eqP ne_mn]; last first.
  rewrite (fit_mismatch He HX Hy reg ne_mn) /=; split=> //.
  - exact: lookup_cat_l.
  - by exists e.
  - by split=> // l A; exact: lookup_cat_l.
move: y Hy; rewrite emn => y Hy.
rewrite (fit_ok He HX Hy reg) /=; split.
- exact: lookup_cat_l.
- exact: lookup_cat_l.
- eexists; first by rewrite lookup_update_same // (lookup_size He).
  by [].
- split.
  + by move=> l A; exact: lookup_cat_l.
  + by move=> l v; exact: lookup_cat_l.
  + by move=> o e0 ne; rewrite lookup_update_other // eq_sym.
Qed.

(** ** Runs of [predict] and [score] *)

(** A freshly constructed estimator is unfitted. *)
Lemma init_unfitted (a : K) s :
  exists2 e, init a s =
               (Return (size (objs s)),
                Store (rcons (objs s) e) (mats s) (vecs s))
           & [/\ unfitted e, alpha e = a
               & lookup (rcons (objs s) e) (size (objs s)) = Some e].
Proof.
exists (Estimator a None None) => //; split=> //.
by rewrite -cats1 lookup_cat_size.
Qed.

Lemma predict_unfitted s self lX e (A : matrix K) :
  lookup (objs s) self = Some e -> coef_ e = None ->
  lookup (mats s) lX = Some A ->
  predict self lX s =
    if (nrows A * ncols A == 0)%N
    then (Return (EmptyObject [:: nrows A; ncols A]), s)
    else (Raise TypeError, s).
Proof.
move=> He Hc HX.
rewrite /predict /getattr /ndarray_dot /bind /load_obj /load_mat He /= Hc HX.
by case: ifP => _ //=; rewrite He.
Qed.

Lemma score_unfitted s self lX ly e (A : matrix K) :
  lookup (objs s) self = Some e -> coef_ e = None ->
  lookup (mats s) lX = Some A ->
  (nrows A * ncols A != 0)%N ->
  score self lX ly s = (Raise TypeError, s).
Proof.
move=> He Hc HX /negbTE ne0.
rewrite /score /getattr /ndarray_dot /bind /load_obj /load_mat He /= Hc HX.
by rewrite ne0.
Qed.

Section Fitted.

Variables (s : store K) (self lX : nat).
Variables (n q p : nat) (X : 'M[K]_(n, q)) (c : 'cV[K]_p) (b : K).
Hypothesis Hf : fitted_with s self c b.
Hypothesis HX : lookup (mats s) lX = Some (Mat X).

Lemma predict_fitted_mismatch :
  q != p -> predict self lX s = (Raise ValueError, s).
Proof.
case: Hf => e [lc [He Hc Hv Hb]] ne_qp.
rewrite /predict /getattr /ndarray_dot /bind /load_obj /load_mat /load_vec.
by rewrite He /= Hc HX Hv /= as_len_neq // eq_sym.
Qed.

Lemma score_fitted_mismatch ly :
  q != p -> score self lX ly s = (Raise ValueError, s).
Proof.
case: Hf => e [lc [He Hc Hv Hb]] ne_qp.
rewrite /score /getattr /ndarray_dot /bind /load_obj /load_mat /load_vec.
by rewrite He /= Hc HX Hv /= as_len_neq // eq_sym.
Qed.

End Fitted.

Section FittedAligned.

Variables (s : store K) (self lX : nat).
Variables (n p : nat) (X : 'M[K]_(n, p)) (c : 'cV[K]_p) (b : K).
Hypothesis Hf : fitted_with s self c b.
Hypothesis HX : lookup (mats s) lX = Some (Mat X).

Lemma predict_fitted :
  predict self lX s =
    (Return (FloatVec (size (vecs s) + 1)),
     Store (objs s) (mats s) (vecs s ++ predict_temps X c b)).
Proof.
case: Hf => e [lc [He Hc Hv Hb]]; case: s He HX Hv => so sm sv /= He HX' Hv.
rewrite /predict /getattr /ndarray_dot /bind /load_obj /load_mat /load_vec.
rewrite /= He /= Hc HX' Hv /= as_len_id /= He Hb /=; heap_norm.
by rewrite /bind /load_vec /=; heap_norm; rewrite addn1.
Qed.

Lemma score_fitted ly m (y : 'cV[K]_m) :
  lookup (vecs s) ly = Some (Vec y) ->
  score self lX ly s =
    ((if as_len m (Vec (linear_model X c b)) is Some yhat
      then if (m == 0)%N then Raise ValueError
           else if ~~ (all_finite y && all_finite yhat)
           then Raise ValueError
           else if (m < 2)%N then Return NaN
           else Return (Float (r2 y yhat))
      else Raise ValueError),
     Store (objs s) (mats s) (vecs s ++ predict_temps X c b)).
Proof.
case: Hf => e [lc [He Hc Hv Hb]].
case: s He HX Hv => so sm sv /= He HX' Hv Hy.
rewrite /score /getattr /ndarray_dot /bind /load_obj /load_mat /load_vec.
rewrite /= He /= Hc HX' Hv /= as_len_id /= He Hb /=; heap_norm.
rewrite /bind /load_vec /=; heap_norm.
rewrite /r2_score /bind /load_vec /= (lookup_cat_l _ Hy) /=.
rewrite lookup_cat_r /= -/(linear_model X c b).
case: (as_len _ _) => [yhat|] //; case: ifP => // _.
by case: ifP => // _; case: ifP.
Qed.

End FittedAligned.

(** The score of at least two finite samples. *)
Lemma score_fitted_r2 (s : store K) self lX ly n p (X : 'M[K]_(n, p))
    (y : 'cV[K]_n) (c : 'cV[K]_p) (b : K) :
  fitted_with s self c b ->
  lookup (mats s) lX = Some (Mat X) ->
  lookup (vecs s) ly = Some (Vec y) ->
  (1 < n)%N -> all_finite y -> all_finite (linear_model X c b) ->
  score self lX ly s =
    (Return (Float (r2 y (linear_model X c b))),
     Store (objs s) (mats s) (vecs s ++ predict_temps X c b)).
Proof.
move=> Hf HX Hy n_gt1 fin_y fin_yhat.
rewrite (score_fitted Hf HX Hy) as_len_id fin_y fin_yhat /=.
by rewrite ltnNge n_gt1 /= -[(n == 0)%N]negbK -lt0n (ltnW n_gt1).
Qed.

(** C3 (amended): [fit] raises whenever the row count of [X] differs
    from the length of [y]: [ValueError] (the code's dimension-mismatch
    error, from the product with [y]) when [np.linalg.inv] returned,
    [LinAlgError] when it failed, since the matrix is inverted before [y]
    is looked at.  On a fitted estimator [predict] raises [ValueError]
    whenever the column count of [X] differs from the length of the
    coefficient vector. *)
Theorem dimension_mismatch_raises :
  (forall s self lX ly e n p m (X : 'M[K]_(n, p)) (y : 'cV[K]_m),
     lookup (objs s) self = Some e ->
     lookup (mats s) lX = Some (Mat X) ->
     lookup (vecs s) ly = Some (Vec y) ->
     m != n ->
     exists s' : store K,
       fit self lX ly s =
         (Raise (if inv_kernel (inv_arg (alpha e) X) is Some _
                 then ValueError else LinAlgError), s'))
  /\
  (forall s self lX n q p (X : 'M[K]_(n, q)) (c : 'cV[K]_p) (b : K),
     fitted_with s self c b ->
     lookup (mats s) lX = Some (Mat X) ->
     q != p ->
     predict self lX s = (Raise ValueError, s)).
Proof.
split=> [s self lX ly e n p m X y He HX Hy ne_mn|].
  case reg: (inv_kernel _) => [Minv|]; eexists.
    by rewrite (fit_mismatch He HX Hy reg ne_mn).
  by rewrite (fit_inv_raises ly He HX reg).
by move=> s self lX n q p X c b; exact: predict_fitted_mismatch.
Qed.

(** C4 (amended): on an estimator that was never fitted, [predict(X)] and
    [score(X, y)] raise [TypeError] (arithmetic with the absent
    coefficients; the class has no not-fitted error of its own) for every
    [X] with at least one entry, and leave the store as it was. *)
Theorem unfitted_raises s self lX ly e (A : matrix K) :
  lookup (objs s) self = Some e -> unfitted e ->
  lookup (mats s) lX = Some A ->
  (nrows A * ncols A != 0)%N ->
  predict self lX s = (Raise TypeError, s) /\
  score self lX ly s = (Raise TypeError, s).
Proof.
move=> He [Hc _] HX ne0; split; last exact: score_unfitted He Hc HX ne0.
by rewrite (predict_unfitted He Hc HX) (negbTE ne0).
Qed.

(** ** The coefficient of determination *)

Section Determination.

Hypothesis laws : lawful K.

Lemma ss_res_refl n (y : 'cV[K]_n) : all_finite y -> ss_res y y = fzero.
Proof.
move=> /forallP fin_y; rewrite /ss_res -[RHS](sum_zeros laws n).
congr sum_kernel; apply/colP => i; rewrite !mxE.
by rewrite (fsub_self laws) // (fmul_zero laws).
Qed.

Lemma ss_res_mean n (y : 'cV[K]_n) : ss_res y (const_mx (mean y)) = ss_tot y.
Proof. by congr sum_kernel; apply/colP => i; rewrite !mxE. Qed.

(** Predictions that equal the targets score [1.0]. *)
Lemma r2_refl n (y : 'cV[K]_n) : all_finite y -> r2 y y = fone.
Proof. by move=> fin_y; rewrite /r2 ss_res_refl // (is_zero_fzero laws). Qed.

(** Predictions that all equal the mean of the targets score [0.0], when
    the denominator is a non-zero number. *)
Lemma r2_mean n (y : 'cV[K]_n) :
  ~~ is_zero (ss_tot y) -> isfinite (ss_tot y) ->
  r2 y (const_mx (mean y)) = fzero.
Proof.
move=> tot_neq0 fin_tot; rewrite /r2 ss_res_mean tot_neq0 /=.
by rewrite (fdiv_self laws) // (fsub_self laws) // (isfinite_fone laws).
Qed.

End Determination.

(** C8 (amended): on a fitted estimator, for [X] with matching column
    count and [y] of matching length, at least two samples and no [nan]
    or infinite entry in the targets and the predictions, [score(X, y)]
    returns the coefficient of determination between [y] and the vector
    that [predict(X)] returns, as [r2_score] computes it:
    [1 - numerator / denominator] when the two computed sums of squares
    are non-zero.  It returns [1.0] whenever the predictions equal the
    targets, and [0.0] when every prediction equals the mean of the
    targets and the computed denominator is a non-zero number. *)
Theorem score_is_r2 s self lX ly n p
    (X : 'M[K]_(n, p)) (y : 'cV[K]_n) (c : 'cV[K]_p) (b : K) :
  lawful K ->
  fitted_with s self c b ->
  lookup (mats s) lX = Some (Mat X) ->
  lookup (vecs s) ly = Some (Vec y) ->
  (1 < n)%N ->
  let yhat := linear_model X c b in
  all_finite y -> all_finite yhat ->
  exists (x : K) (s' : store K),
    [/\ (exists2 l, predict self lX s = (Return (FloatVec l), s')
                  & lookup (vecs s') l = Some (Vec yhat)),
        score self lX ly s = (Return (Float x), s'),
        ~~ is_zero (ss_res y yhat) -> ~~ is_zero (ss_tot y) ->
          x = fsub fone (fdiv (ss_res y yhat) (ss_tot y)),
        yhat = y -> x = fone
      & yhat = const_mx (mean y) ->
        ~~ is_zero (ss_tot y) -> isfinite (ss_tot y) -> x = fzero].
Proof.
move=> laws Hf HX Hy n_gt1 yhat fin_y fin_yhat.
exists (r2 y yhat); eexists; split.
- exists (size (vecs s) + 1)%N; first exact: predict_fitted Hf HX.
  by rewrite /= lookup_cat_r.
- exact: score_fitted_r2.
- by rewrite /r2 => -> ->.
- by move=> ->; exact: r2_refl.
- by move=> ->; exact: r2_mean.
Qed.

(** ** Hyperparameter accessors *)

Lemma set_params_items_run self params :
  forall s e, lookup (objs s) self = Some e ->
    set_params_items self params s =
      (Return tt, with_alpha s self e (alpha_after params (alpha e))).
Proof.
elim: params => [|[k v] params IH] [so sm sv] e /= He.
  by rewrite /ret /with_alpha /= update_same //; case: e He.
have lt_self := lookup_size He.
case: ifP => _; rewrite /bind /=; last exact: IH.
rewrite /setattr_alpha /bind /load_obj /store_obj /= He lt_self.
rewrite (IH _ (Estimator v (coef_ e) (intercept_ e))) /=.
  exact: lookup_update_same.
by rewrite /with_alpha /= update_update.
Qed.

Lemma set_params_run s self e params :
  lookup (objs s) self = Some e ->
  set_params self params s =
    (Return self, with_alpha s self e (alpha_after params (alpha e))).
Proof. by move=> He; rewrite /set_params /bind (set_params_items_run _ He). Qed.

Lemma alpha_after_unknown (params : seq (string * K)) a0 :
  all (fun kv => ~~ String.eqb kv.1 "alpha") params ->
  alpha_after params a0 = a0.
Proof.
rewrite /alpha_after.
by elim: params a0 => [|[k v] params IH] a0 //= /andP[/negbTE -> /IH].
Qed.

Lemma with_alpha_same s self e :
  lookup (objs s) self = Some e -> with_alpha s self e (alpha e) = s.
Proof.
by case: s => so sm sv /= He; rewrite /with_alpha /= update_same //; case: e He.
Qed.

(** C5 (amended): [set_params] never raises.  Items whose key is not
    [alpha] are ignored; given the key [alpha] alone it sets [alpha] to the
    given value; in every case it returns the estimator itself and leaves
    the fitted parameters and all arrays untouched. *)
Theorem set_params_ignores_unknown_keys s self e :
  lookup (objs s) self = Some e ->
  [/\ forall params,
        set_params self params s =
          (Return self, with_alpha s self e (alpha_after params (alpha e))),
      forall v,
        set_params self [:: ("alpha"%string, v)] s =
          (Return self, with_alpha s self e v)
    & forall params,
        all (fun kv => ~~ String.eqb kv.1 "alpha") params ->
        set_params self params s = (Return self, s)].
Proof.
move=> He; split=> [params | v | params unknown].
- exact: set_params_run.
- by rewrite (set_params_run _ He).
- by rewrite (set_params_run _ He) alpha_after_unknown // with_alpha_same.
Qed.

Lemma with_alpha_lookup s self e a :
  lookup (objs s) self = Some e ->
  lookup (objs (with_alpha s self e a)) self =
    Some (Estimator a (coef_ e) (intercept_ e)).
Proof. by move=> He; rewrite /= lookup_update_same // (lookup_size He). Qed.



(** ** The length of the coefficient vector *)

Lemma allocates_ret A (a : A) : allocates_vectors (ret a : M K A).
Proof. by case=> so sm sv; exists [::]; rewrite /= cats0. Qed.

Lemma allocates_raise A ex : allocates_vectors (raise ex : M K A).
Proof. by case=> so sm sv; exists [::]; rewrite /= cats0. Qed.

Lemma allocates_bind A B (m : M K A) (k : A -> M K B) :
  allocates_vectors m -> (forall a, allocates_vectors (k a)) ->
  allocates_vectors (bind m k).
Proof.
move=> Hm Hk s; rewrite /bind; have [t] := Hm s.
case: (m s) => [[a | ex | ] s1] /= ->; try by exists t.
have [t' ->] := Hk a (Store (objs s) (mats s) (vecs s ++ t)).
by exists (t ++ t'); rewrite /= catA.
Qed.

Lemma allocates_load_obj l : allocates_vectors (load_obj l : M K _).
Proof.
case=> so sm sv; exists [::]; rewrite /load_obj /= cats0.
by case: (lookup so l).
Qed.

Lemma allocates_load_mat l : allocates_vectors (load_mat l : M K _).
Proof.
case=> so sm sv; exists [::]; rewrite /load_mat /= cats0.
by case: (lookup sm l).
Qed.

Lemma allocates_load_vec l : allocates_vectors (load_vec l : M K _).
Proof.
case=> so sm sv; exists [::]; rewrite /load_vec /= cats0.
by case: (lookup sv l).
Qed.

Lemma allocates_alloc_vec (v : vector K) : allocates_vectors (alloc_vec v).
Proof. by case=> so sm sv; exists [:: v]; rewrite /= cats1. Qed.

Lemma allocates_getattr A self (field : estimator K -> A) :
  allocates_vectors (getattr self field).
Proof.
apply: allocates_bind; first exact: allocates_load_obj.
by move=> e; exact: allocates_ret.
Qed.

Lemma allocates_ndarray_dot lX (c : option nat) :
  allocates_vectors (ndarray_dot lX c : M K _).
Proof.
apply: allocates_bind => [|A]; first exact: allocates_load_mat.
case: c => [lc|]; last first.
  by case: ifP => _; [exact: allocates_ret | exact: allocates_raise].
apply: allocates_bind => [|v]; first exact: allocates_load_vec.
case: (as_len _ _) => [v'|]; last exact: allocates_raise.
apply: allocates_bind => [|l]; first exact: allocates_alloc_vec.
exact: allocates_ret.
Qed.

Lemma allocates_add_scalar (z : pyarray) (b : option K) :
  allocates_vectors (add_scalar z b).
Proof.
case: z => [l|sh]; last exact: allocates_ret.
apply: allocates_bind => [|v]; first exact: allocates_load_vec.
case: b => [b'|].
  apply: allocates_bind => [|l']; first exact: allocates_alloc_vec.
  exact: allocates_ret.
by case: ifP => _; [exact: allocates_ret | exact: allocates_raise].
Qed.

Lemma allocates_r2_score ly (z : pyarray) :
  allocates_vectors (r2_score ly z : M K _).
Proof.
apply: allocates_bind => [|yv]; first exact: allocates_load_vec.
case: z => [l|sh]; last exact: allocates_raise.
apply: allocates_bind => [|pv]; first exact: allocates_load_vec.
case: (as_len _ _) => [yhat|]; last exact: allocates_raise.
case: ifP => _; first exact: allocates_raise.
case: ifP => _; first exact: allocates_raise.
by case: ifP => _; exact: allocates_ret.
Qed.

(** [predict] and [score] only allocate vectors. *)
Lemma predict_store self lX : allocates_vectors (predict self lX : M K _).
Proof.
apply: allocates_bind => [|c]; first exact: allocates_getattr.
apply: allocates_bind => [|z]; first exact: allocates_ndarray_dot.
apply: allocates_bind => [|b]; first exact: allocates_getattr.
exact: allocates_add_scalar.
Qed.

Lemma score_store self lX ly : allocates_vectors (score self lX ly : M K _).
Proof.
apply: allocates_bind => [|c]; first exact: allocates_getattr.
apply: allocates_bind => [|z]; first exact: allocates_ndarray_dot.
apply: allocates_bind => [|b]; first exact: allocates_getattr.
apply: allocates_bind => [|yhat]; first exact: allocates_add_scalar.
exact: allocates_r2_score.
Qed.

Lemma coef_length_grown so sm (sv t : seq (vector K)) self :
  forall k, coef_length (Store so sm sv) self = Some k ->
  coef_length (Store so sm (sv ++ t)) self = Some k.
Proof.
rewrite /coef_length /=; case: (lookup so self) => [e|] // k.
case: (coef_ e) => [lc|] //; case Hv: (lookup sv lc) => [v|] //= ek.
by rewrite (lookup_cat_l _ Hv).
Qed.

Lemma run_call_coef_length self s (c : call K) k :
  coef_length s self = Some k -> coef_length (run_call self s c) self = Some k.
Proof.
case: c => [lX | lX ly | | params] /=.
- have [t ->] := predict_store self lX s.
  by case: s => so sm sv; exact: coef_length_grown.
- have [t ->] := score_store self lX ly s.
  by case: s => so sm sv; exact: coef_length_grown.
- rewrite /get_params /getattr /bind /load_obj.
  by case: (lookup _ _).
- rewrite /coef_length; case He: (lookup (objs s) self) => [e|] //.
  by rewrite (set_params_run _ He) /= lookup_update_same ?(lookup_size He).
Qed.

(** C10: after a call of [fit] on an [n] by [p] design matrix that
    returned, the coefficient vector has length [p], and it still has
    after any sequence of [predict], [score], [get_params] and
    [set_params] calls, whatever their arguments and outcomes. *)
Theorem coef_length_invariant s self lX ly e n p m
    (X : 'M[K]_(n, p)) (y : 'cV[K]_m) s' (calls : seq (call K)) :
  lookup (objs s) self = Some e ->
  lookup (mats s) lX = Some (Mat X) ->
  lookup (vecs s) ly = Some (Vec y) ->
  fit self lX ly s = (Return tt, s') ->
  coef_length s' self = Some p /\
  coef_length (foldl (run_call self) s' calls) self = Some p.
Proof.
move=> He HX Hy Hfit.
have len_s' : coef_length s' self = Some p.
  case reg: (inv_kernel (inv_arg (alpha e) X)) Hfit => [Minv|]; last first.
    by rewrite (fit_inv_raises ly He HX reg).
  case: (m =P n) => [emn | /eqP ne_mn]; last first.
    by rewrite (fit_mismatch He HX Hy reg ne_mn).
  move: y Hy; rewrite emn => y Hy; rewrite (fit_ok He HX Hy reg) => -[<-].
  rewrite /coef_length /= lookup_update_same ?(lookup_size He) //=.
  by rewrite lookup_cat_r.
split=> //; elim: calls s' len_s' {Hfit} => [|c calls IH] s' len_s' //=.
by apply: IH; exact: run_call_coef_length.
Qed.

(** * Further properties *)

(** ** What [fit] computes *)

(** X6: on a design matrix without rows [fit] raises [LinAlgError]
    whatever the number [alpha]: the product [X_.T @ X_] is then zero and
    so is the first column of [alpha * I], the unpenalized intercept. *)
Theorem fit_no_sample_raises s self lX ly e p (X : 'M[K]_(0, p)) :
  lawful K ->
  lookup (objs s) self = Some e ->
  lookup (mats s) lX = Some (Mat X) ->
  isfinite (alpha e) ->
  exists s' : store K, fit self lX ly s = (Raise LinAlgError, s').
Proof.
move=> laws He HX fin_a; rewrite (fit_inv_raises ly He HX); last by eexists.
apply: (inv_zero_column laws) => i.
rewrite /inv_arg /gram (matmul_empty laws) !mxE.
apply: (fadd_zeros laws); first exact: is_zero_fzero.
rewrite /= andbT -[i == ord0]/(i == 0%N :> nat).
by case: (i == 0%N :> nat) => /=; exact: (fmul_finite_zero laws).
Qed.

(** X7: after a call of [fit(X, y)] that returned, [predict(X)] on the
    same matrix returns a new array that holds [X.dot(w[1:]) + w[0]] for
    the weights [w] that [fit] computed. *)
Theorem fit_then_predict s self lX ly e n p (X : 'M[K]_(n, p))
    (y : 'cV[K]_n) (Minv : 'M[K]_(1 + p)) :
  lookup (objs s) self = Some e ->
  lookup (mats s) lX = Some (Mat X) ->
  lookup (vecs s) ly = Some (Vec y) ->
  inv_kernel (inv_arg (alpha e) X) = Some Minv ->
  let w := fit_weights Minv X y in
  exists (s' s'' : store K) (l : nat),
    [/\ fit self lX ly s = (Return tt, s'),
        predict self lX s' = (Return (FloatVec l), s''),
        lookup (vecs s'') l = Some (Vec (linear_model X (dsubmx w) (w 0 0)))
      & lookup (vecs s) l = None].
Proof.
move=> He HX Hy reg w.
have fitted := fit_ok_fitted He HX Hy reg.
have run := fit_ok He HX Hy reg.
rewrite -/w in fitted run; rewrite run /= in fitted.
have HX' : lookup (mats (fit self lX ly s).2) lX = Some (Mat X).
  by rewrite run /=; exact: lookup_cat_l.
rewrite run /= in HX'.
have run_predict := predict_fitted fitted HX'.
do 3!eexists; split; [exact: run | exact: run_predict | |].
  by rewrite /= lookup_cat_r.
rewrite /= size_cat /= -addnA.
case Hl: (lookup _ _) => [v|] //; have := lookup_size Hl.
by rewrite ltnNge leq_addr.
Qed.

(** ** Scores *)

Section FittedScores.

Variables (s : store K) (self lX ly : nat).
Variables (n p : nat) (X : 'M[K]_(n, p)) (c : 'cV[K]_p) (b : K).
Hypothesis Hf : fitted_with s self c b.
Hypothesis HX : lookup (mats s) lX = Some (Mat X).

(** X11: on a fitted estimator, [score(X, y)] raises [ValueError] when the
    length of [y] differs from the number of rows of [X] (the column
    count of [X] matching the coefficients). *)
Theorem score_length_mismatch_raises m (y : 'cV[K]_m) :
  lookup (vecs s) ly = Some (Vec y) -> m != n ->
  exists s' : store K, score self lX ly s = (Raise ValueError, s').
Proof.
move=> Hy ne_mn; rewrite (score_fitted Hf HX Hy).
have -> : as_len m (Vec (linear_model X c b)) = None.
  by apply: as_len_neq; rewrite /= eq_sym.
by eexists.
Qed.

(** X12: on a fitted estimator, [score(X, y)] with fewer than two samples
    gives no number: [ValueError] without any sample, [nan] with exactly
    one (whose target and prediction are numbers). *)
Theorem score_few_samples (y : 'cV[K]_n) :
  lookup (vecs s) ly = Some (Vec y) -> (n < 2)%N ->
  all_finite y -> all_finite (linear_model X c b) ->
  exists s' : store K,
    score self lX ly s =
      (if (n == 0)%N then Raise ValueError else Return NaN, s').
Proof.
move=> Hy lt_n2 fin_y fin_yhat.
rewrite (score_fitted Hf HX Hy) as_len_id lt_n2 fin_y fin_yhat /=.
by eexists.
Qed.

(** X14: on a fitted estimator, [predict(X)] returns a new vector holding
    [X.dot(coef_) + intercept_]; the estimator is still fitted with the
    same parameters, and a second call returns the same values. *)
Theorem predict_linear_model :
  exists (l l' : nat) (s' s'' : store K),
    [/\ predict self lX s = (Return (FloatVec l), s'),
        lookup (vecs s') l = Some (Vec (linear_model X c b)),
        fitted_with s' self c b,
        predict self lX s' = (Return (FloatVec l'), s'')
      & lookup (vecs s'') l' = Some (Vec (linear_model X c b))].
Proof.
have run := predict_fitted Hf HX.
set s' := Store _ _ _ in run.
have Hf' : fitted_with s' self c b.
  case: Hf => e [lc [He Hc Hv Hb]]; exists e, lc; split=> //.
  exact: lookup_cat_l.
have run' := predict_fitted Hf' HX.
do 4!eexists; split; [exact: run | | exact: Hf' | exact: run' | ].
  by rewrite /= lookup_cat_r.
by rewrite /= lookup_cat_r.
Qed.

End FittedScores.

(** X15: [predict] and [score] have no side effect on what existed before
    the call, whatever their arguments and outcome: estimators and
    matrices are unchanged and every vector keeps its entries. *)
Theorem predict_score_frame (s : store K) self lX ly :
  let unchanged (s' : store K) :=
    [/\ objs s' = objs s, mats s' = mats s
      & forall l v, lookup (vecs s) l = Some v -> lookup (vecs s') l = Some v]
  in
  unchanged (predict self lX s).2 /\ unchanged (score self lX ly s).2.
Proof.
have [t ->] := predict_store self lX s.
have [t' ->] := score_store self lX ly s.
by split; split=> //= l v; exact: lookup_cat_l.
Qed.

(** ** Several calls in a row *)

(** X17: [fit] solves from scratch: a second call, on any data, stores the
    weights computed from that data alone, and it does so in a new array:
    the array that [coef_] referred to after the first call is another
    one and keeps its entries. *)
Theorem refit_from_scratch (s : store K) self lX1 ly1 lX2 ly2 e n1 p1 n2 p2
    (X1 : 'M[K]_(n1, p1)) (y1 : 'cV[K]_n1)
    (X2 : 'M[K]_(n2, p2)) (y2 : 'cV[K]_n2)
    (Minv1 : 'M[K]_(1 + p1)) (Minv2 : 'M[K]_(1 + p2)) :
  lookup (objs s) self = Some e ->
  lookup (mats s) lX1 = Some (Mat X1) ->
  lookup (vecs s) ly1 = Some (Vec y1) ->
  lookup (mats s) lX2 = Some (Mat X2) ->
  lookup (vecs s) ly2 = Some (Vec y2) ->
  inv_kernel (inv_arg (alpha e) X1) = Some Minv1 ->
  inv_kernel (inv_arg (alpha e) X2) = Some Minv2 ->
  let w1 := fit_weights Minv1 X1 y1 in
  let w2 := fit_weights Minv2 X2 y2 in
  exists (s1 s2 : store K) (lc1 lc2 : nat),
    [/\ fit self lX1 ly1 s = (Return tt, s1),
        coef_at s1 self lc1 /\ lookup (vecs s1) lc1 = Some (Vec (dsubmx w1)),
        fit self lX2 ly2 s1 = (Return tt, s2),
        coef_at s2 self lc2 /\ lookup (vecs s2) lc2 = Some (Vec (dsubmx w2))
      & [/\ fitted_with s2 self (dsubmx w2) (w2 0 0), lc2 != lc1
          & lookup (vecs s2) lc1 = Some (Vec (dsubmx w1))]].
Proof.
move=> He HX1 Hy1 HX2 Hy2 reg1 reg2 w1 w2.
have run1 : fit self lX1 ly1 s = _ := fit_ok He HX1 Hy1 reg1.
rewrite -/w1 in run1; set s1 := Store _ _ _ in run1.
have He1 : lookup (objs s1) self =
    Some (Estimator (alpha e) (Some (size (vecs s) + 1)%N) (Some (w1 0 0))).
  by rewrite /= lookup_update_same // (lookup_size He).
have HX2' : lookup (mats s1) lX2 = Some (Mat X2) by exact: lookup_cat_l.
have Hy2' : lookup (vecs s1) ly2 = Some (Vec y2) by exact: lookup_cat_l.
have Hc1 : lookup (vecs s1) (size (vecs s) + 1) = Some (Vec (dsubmx w1)).
  by rewrite /= lookup_cat_r.
have run2 : fit self lX2 ly2 s1 = _ := fit_ok He1 HX2' Hy2' reg2.
rewrite -/w2 in run2; set s2 := Store _ _ _ in run2.
have fitted2 : fitted_with s2 self (dsubmx w2) (w2 0 0).
  by have := fit_ok_fitted He1 HX2' Hy2' reg2; rewrite run2.
exists s1, s2, (size (vecs s) + 1)%N, (size (vecs s1) + 1)%N; split=> //.
- by split=> //; eexists; first exact: He1.
- split; last by rewrite /= lookup_cat_r.
  have lt_self := lookup_size He.
  eexists; first by rewrite /= lookup_update_same // size_update lt_self.
  by [].
- split=> //; last exact: lookup_cat_l.
  by rewrite /= size_cat /= -addnA eqn_add2l.
Qed.

(** X18: [set_params] leaves a fitted estimator fitted with the same
    intercept and coefficients, whatever the new [alpha]: [predict] keeps
    returning the predictions of the last [fit] until [fit] is called
    again. *)
Theorem set_params_keeps_fit (s : store K) self params lX n p
    (X : 'M[K]_(n, p)) (c : 'cV[K]_p) (b : K) :
  fitted_with s self c b ->
  lookup (mats s) lX = Some (Mat X) ->
  exists (s1 s2 : store K) (l : nat),
    [/\ set_params self params s = (Return self, s1),
        fitted_with s1 self c b,
        predict self lX s1 = (Return (FloatVec l), s2)
      & lookup (vecs s2) l = Some (Vec (linear_model X c b))].
Proof.
case=> e [lc [He Hc Hv Hb]] HX.
have run := set_params_run params He.
set s1 := with_alpha _ _ _ _ in run.
have Hf1 : fitted_with s1 self c b.
  exists (Estimator (alpha_after params (alpha e)) (coef_ e) (intercept_ e)).
  by exists lc; split=> //; exact: with_alpha_lookup.
have HX1 : lookup (mats s1) lX = Some (Mat X) by [].
exists s1; do 2!eexists; split=> //; first exact: predict_fitted Hf1 HX1.
by rewrite /= lookup_cat_r.
Qed.

Lemma alpha_kwarg_get_params (a : K) :
  alpha_kwarg [:: ("alpha"%string, a)] (default_alpha K) = Some a.
Proof. by []. Qed.

(** X19: building an estimator from the parameters of another one, as the
    cross-validation and grid-search drivers do, gives a new estimator
    with the same [alpha] and no fitted parameters, even when the
    original is fitted; the original and all arrays are untouched. *)
Theorem reconstruct_unfitted_copy (s : store K) model e :
  lookup (objs s) model = Some e ->
  exists (copy : nat) (s' : store K),
    [/\ reconstruct model s = (Return copy, s'),
        copy != model,
        lookup (objs s') copy = Some (Estimator (alpha e) None None),
        lookup (objs s') model = Some e
      & mats s' = mats s /\ vecs s' = vecs s].
Proof.
move=> He; exists (size (objs s)); eexists; split.
- by rewrite /reconstruct /get_params /getattr /bind /load_obj He.
- by rewrite neq_ltn (lookup_size He) orbT.
- by rewrite /= -cats1 lookup_cat_size.
- by rewrite /= -cats1; exact: lookup_cat_l.
- by [].
Qed.

(** X20: the cells of the notebook, run with the tuned parameters on a
    development set for which [np.linalg.inv] returns and a test set of
    at least two samples with the same number of features, whose targets
    and predictions are numbers, return: the model ends fitted with the
    weights computed for the tuned [alpha], the test predictions are
    those of the linear model with these weights, and the test score is
    their coefficient of determination. *)
Theorem notebook_run_returns (s : store K) best_params
    dev_features dev_labels test_features test_labels n m p
    (X : 'M[K]_(n, p)) (y : 'cV[K]_n) (Xt : 'M[K]_(m, p)) (yt : 'cV[K]_m)
    (Minv : 'M[K]_(1 + p)) :
  lookup (mats s) dev_features = Some (Mat X) ->
  lookup (vecs s) dev_labels = Some (Vec y) ->
  lookup (mats s) test_features = Some (Mat Xt) ->
  lookup (vecs s) test_labels = Some (Vec yt) ->
  let a := alpha_after best_params (default_alpha K) in
  inv_kernel (inv_arg a X) = Some Minv ->
  let w := fit_weights Minv X y in
  let yhat := linear_model Xt (dsubmx w) (w 0 0) in
  (1 < m)%N -> all_finite yt -> all_finite yhat ->
  exists (l : nat) (s' : store K),
    [/\ notebook_run best_params dev_features dev_labels
          test_features test_labels s =
          (Return (size (objs s), Float (r2 yt yhat), FloatVec l), s'),
        fitted_with s' (size (objs s)) (dsubmx w) (w 0 0)
      & lookup (vecs s') l = Some (Vec yhat)].
Proof.
move=> HX Hy HXt Hyt a reg w yhat m_gt1 fin_yt fin_yhat.
set model := size (objs s).
pose s0 := Store (rcons (objs s) (Estimator (default_alpha K) None None))
                 (mats s) (vecs s).
have He0 : lookup (objs s0) model =
    Some (Estimator (default_alpha K) None None).
  by rewrite /= -cats1 lookup_cat_size.
have run_set := set_params_run best_params He0.
rewrite -/a in run_set; set s1 := with_alpha _ _ _ _ in run_set.
have He1 : lookup (objs s1) model = Some (Estimator a None None).
  exact: with_alpha_lookup a He0.
have HX1 : lookup (mats s1) dev_features = Some (Mat X) by [].
have Hy1 : lookup (vecs s1) dev_labels = Some (Vec y) by [].
have run_fit : fit model dev_features dev_labels s1 = _ :=
  fit_ok He1 HX1 Hy1 reg.
have fitted := fit_ok_fitted He1 HX1 Hy1 reg.
rewrite -/w in run_fit fitted; rewrite run_fit /= in fitted.
set s2 := Store _ _ _ in run_fit fitted.
have HXt2 : lookup (mats s2) test_features = Some (Mat Xt).
  exact: lookup_cat_l.
have Hyt2 : lookup (vecs s2) test_labels = Some (Vec yt).
  exact: lookup_cat_l.
have run_score := score_fitted_r2 fitted HXt2 Hyt2 m_gt1 fin_yt fin_yhat.
set s3 := Store _ _ _ in run_score.
have fitted3 : fitted_with s3 model (dsubmx w) (w 0 0).
  case: fitted => e2 [lc [He2 Hc2 Hv2 Hb2]]; exists e2, lc; split=> //.
  exact: lookup_cat_l.
have HXt3 : lookup (mats s3) test_features = Some (Mat Xt) by [].
have run_predict := predict_fitted fitted3 HXt3.
set s4 := Store _ _ _ in run_predict.
exists (size (vecs s3) + 1)%N, s4; split.
- rewrite /notebook_run /fit_best /bind /init /alloc_obj /= -/s0 -/model.
  by rewrite run_set run_fit run_score run_predict.
- case: fitted3 => e3 [lc [He3 Hc3 Hv3 Hb3]]; exists e3, lc; split=> //.
  exact: lookup_cat_l.
- by rewrite /= lookup_cat_r.
Qed.

End Properties.

(** * Exact arithmetic *)

Section ExactArithmetic.

Variable R : realFieldType.

Lemma exact_lawful : lawful (exact R).
Proof.
split=> /=.
- by move=> x _; rewrite subrr.
- by rewrite mulr0.
- by move=> x _ x_neq0; rewrite divff.
- exact: eqxx.
- by [].
- by move=> a _; rewrite mulr0.
- by move=> x y /eqP -> /eqP ->; rewrite addr0.
- by move=> n; rewrite big1 // => i _; rewrite mxE.
- by move=> m p A B; apply/matrixP => i j; rewrite !mxE big_ord0.
- move=> n A col0; case: ifP => // reg.
  have A0 : A *m (delta_mx ord0 ord0 : 'cV[R]_n.+1) = 0.
    apply/colP => i; rewrite !mxE big1 // => j _; rewrite !mxE andbT.
    by case: (j =P ord0) => [-> | _]; rewrite ?mulr0 // (eqP (col0 i)) mul0r.
  have /matrixP /(_ ord0 ord0) := congr1 (mulmx (invmx A)) A0.
  by rewrite mulKmx // mulmx0 !mxE eqxx => /eqP; rewrite oner_eq0.
Qed.

(** The argument of [np.linalg.inv] is the normal matrix of the
    specification. *)
Lemma inv_arg_exact n p (a : R) (X : 'M[R]_(n, p)) :
  inv_arg (K := exact R) a X = normal_matrix a X.
Proof.
apply/matrixP => i j; rewrite /inv_arg /normal_matrix mxE [RHS]mxE /=.
congr (_ + _); rewrite !mxE.
have -> : (i == 0) && (j == 0) = (i == 0%N :> nat) && (j == 0%N :> nat) by [].
case: ifP => _; rewrite /= ?mulr0 //.
by case: (i == j); rewrite /= ?mulr1n ?mulr0n.
Qed.

(** Ordinary least squares ([alpha = 0]) with fewer samples than columns
    of the augmented matrix has a singular normal matrix. *)
Lemma underdetermined_singular n p (X : 'M[R]_(n, p)) :
  (n < 1 + p)%N -> normal_matrix 0 X \notin unitmx.
Proof.
move=> lt_n; rewrite /normal_matrix.
have -> : penalty p (0 : R) = 0.
  by apply/matrixP => i j; rewrite !mxE; case: ifP => // _; rewrite mul0r.
rewrite addr0 -row_full_unit /row_full.
apply: contraL lt_n => /eqP rk; rewrite -leqNgt -[X in (X <= _)%N]rk.
exact: leq_trans (mxrankM_maxr _ _) (rank_leq_row _).
Qed.

Lemma penalty_diag p (a : R) :
  penalty p a = diag_mx (\row_j if j == 0 then 0 else a).
Proof.
apply/matrixP => i j; rewrite !mxE.
case: (i =P j) => [-> | ne_ij]; rewrite ?mulr1n ?mulr0n ?mulr1 ?mulr0.
  by rewrite andbb.
by case: ifP.
Qed.

(** Ridge regression proper: with [alpha > 0] and at least one sample the
    normal matrix is positive definite, hence invertible. *)
Lemma normal_matrix_regular n p (a : R) (X : 'M[R]_(n, p)) :
  (0 < n)%N -> 0 < a -> normal_matrix a X \in unitmx.
Proof.
case: n X => [//|n] X _ a_gt0.
rewrite -row_free_unit; apply: inj_row_free => v vM0.
pose u := v *m (augmented X)^T.
have: (v *m normal_matrix a X *m v^T) 0 0 = 0 by rewrite vM0 mul0mx mxE.
rewrite /normal_matrix mulmxDr mulmxDl mulmxA -/u -mulmxA.
rewrite -[augmented X *m v^T]trmxK trmx_mul trmxK -/u penalty_diag.
rewrite mxE [X in X + _]mxE [X in _ + X]mxE.
have -> : \sum_j u 0 j * u^T j 0 = \sum_j u 0 j ^+ 2.
  by apply: eq_bigr => j _; rewrite [u^T _ _]mxE expr2.
have -> : \sum_j (v *m diag_mx (\row_j0 (if j0 == 0 then 0 else a))) 0 j
                 * v^T j 0
          = \sum_j (if j == 0 then 0 else a) * v 0 j ^+ 2.
  by apply: eq_bigr => j _; rewrite mul_mx_diag !mxE mulrAC -expr2 mulrC.
have ge0u : 0 <= \sum_j u 0 j ^+ 2 by apply: sumr_ge0 => j _; exact: sqr_ge0.
have ge0c j : 0 <= (if j == 0 then 0 else a) * v 0 j ^+ 2.
  by rewrite mulr_ge0 ?sqr_ge0 //; case: ifP => _ //; exact: ltW.
have ge0s : 0 <= \sum_j (if j == 0 then 0 else a) * v 0 j ^+ 2.
  by apply: sumr_ge0 => j _; exact: ge0c.
move/eqP; rewrite (paddr_eq0 ge0u ge0s) => /andP[/eqP u0 /eqP v0].
have vj0 j : j != 0 -> v 0 j = 0.
  move=> /negbTE ne_j0.
  have /eqP := psumr_eq0P (fun j _ => ge0c j) v0 (i := j) isT.
  by rewrite ne_j0 mulf_eq0 (gt_eqF a_gt0) /= sqrf_eq0 => /eqP.
have uk0 k : u 0 k = 0.
  have /eqP := psumr_eq0P (fun j _ => sqr_ge0 (u 0 j)) u0 (i := k) isT.
  by rewrite sqrf_eq0 => /eqP.
have v00 : v 0 0 = 0.
  have := uk0 0; rewrite /u mxE big_ord_recl big1 ?addr0 => [i _|].
    by rewrite vj0 ?mul0r.
  rewrite mxE [augmented X _ _]mxE.
  by case: splitP => [j _ | j //]; rewrite mxE mulr1.
apply/rowP => j; rewrite mxE.
by case: (j =P 0) => [-> | /eqP /vj0 //]; rewrite v00.
Qed.

(** In exact arithmetic [fit] returns whenever the normal matrix is
    invertible, and the weights it stores are the solution of the normal
    equations. *)
Lemma exact_fit_solves (s : store (exact R)) self lX ly
    (e : estimator (exact R)) n p (X : 'M[exact R]_(n, p))
    (y : 'cV[exact R]_n) :
  lookup (objs s) self = Some e ->
  lookup (mats s) lX = Some (Mat X) ->
  lookup (vecs s) ly = Some (Vec y) ->
  normal_matrix (alpha e : R) X \in unitmx ->
  exists (w : 'cV[exact R]_(1 + p)) (s' : store (exact R)),
    [/\ fit self lX ly s = (Return tt, s'),
        fitted_with s' self (dsubmx w) (w 0 0)
      & unique_solution (alpha e : R) X y w].
Proof.
move=> He HX Hy reg.
pose Minv : 'M[exact R]_(1 + p) := invmx (normal_matrix (alpha e : R) X).
have inv_ok : inv_kernel (inv_arg (alpha e) X) = Some Minv.
  by rewrite inv_arg_exact /= reg.
exists (fit_weights Minv X y), (fit self lX ly s).2; split.
- by rewrite (fit_ok He HX Hy inv_ok).
- exact: (fit_ok_fitted He HX Hy inv_ok).
- have := @exact_run_solves (exact R) R id n p (alpha e) X y Minv
            (fit_weights Minv X y).
  rewrite !map_mx_id // inv_arg_exact mulVmx // /fit_weights /= -mulmxA.
  exact.
Qed.

(** ** Scores in exact arithmetic *)

Lemma ss_res_ge0 n (y yhat : 'cV[R]_n) :
  0 <= (ss_res (K := exact R) y yhat : R).
Proof.
by rewrite /ss_res /=; apply: sumr_ge0 => i _; rewrite mxE /= -expr2 sqr_ge0.
Qed.

Lemma ss_tot_ge0 n (y : 'cV[R]_n) : 0 <= (ss_tot (K := exact R) y : R).
Proof.
by rewrite /ss_tot /=; apply: sumr_ge0 => i _; rewrite mxE /= -expr2 sqr_ge0.
Qed.

Lemma r2_le1 n (y yhat : 'cV[R]_n) : (r2 (K := exact R) y yhat : R) <= 1.
Proof.
rewrite /r2 /=; case: ifP => [_|_]; last by case: ifP.
by rewrite lerBlDr lerDl divr_ge0 ?ss_res_ge0 ?ss_tot_ge0.
Qed.

Lemma returns_only_ret A (P : A -> Prop) (a : A) :
  P a -> returns_only P (ret a : M (exact R) A).
Proof. by move=> Pa s a' s' [<- _]. Qed.

Lemma returns_only_raise A (P : A -> Prop) ex :
  returns_only P (raise ex : M (exact R) A).
Proof. by []. Qed.

Lemma returns_only_bind A B (P : B -> Prop) (m : M (exact R) A)
    (k : A -> M (exact R) B) :
  (forall a, returns_only P (k a)) -> returns_only P (bind m k).
Proof.
move=> Hk s b s'; rewrite /bind; case: (m s) => [[a | ex | ] s1] //.
exact: Hk.
Qed.

Lemma r2_score_bounded ly (z : pyarray) :
  returns_only (@at_most_one R) (r2_score ly z).
Proof.
apply: returns_only_bind => yv; case: z => [l|sh]; last first.
  exact: returns_only_raise.
apply: returns_only_bind => pv.
case: (as_len _ _) => [yhat|]; last exact: returns_only_raise.
case: ifP => _; first exact: returns_only_raise.
case: ifP => _; first exact: returns_only_raise.
case: ifP => _; first exact: returns_only_ret.
by apply: returns_only_ret; exact: r2_le1.
Qed.

(** X10: in exact arithmetic a score is never above one: whenever
    [score(X, y)] returns a number, on whatever estimator and arrays,
    that number is at most [1]. *)
Theorem score_at_most_one (s : store (exact R)) self lX ly (x : R) s' :
  score self lX ly s = (Return (Float (x : exact R)), s') -> x <= 1.
Proof.
have bound : returns_only (@at_most_one R) (score self lX ly).
  do 4![apply: returns_only_bind => ?].
  exact: r2_score_bounded.
exact: (bound s (Float (x : exact R)) s').
Qed.

End ExactArithmetic.

(** * IEEE doubles *)

(** ** The laws of arithmetic *)

Lemma shl_align_same m e : shl_align m e e = (m, e).
Proof. by rewrite /shl_align Z.sub_diag. Qed.

Lemma b64_sub_self x : b64_isfinite x -> b64_sub x x = b64_zero.
Proof.
case: x => [[]|[]||s m e] //= _.
by rewrite /b64_sub /SFsub Z.min_id shl_align_same /= Z.sub_diag.
Qed.

Lemma div_eucl_mul (a b : Z) :
  b <> 0%Zb -> Z.div_eucl (a * b) b = (a, 0%Zb).
Proof.
move=> b_neq0.
have := Z.div_mul a b b_neq0; have := Z.mod_mul a b b_neq0.
by rewrite /Z.div /Z.modulo; case: (Z.div_eucl _ _) => q r /= -> ->.
Qed.

Lemma SFdiv_core_self m e :
  SFdiv_core_binary prec emax (Z.pos m) e (Z.pos m) e =
    (9007199254740992%Zb, (-53)%Zb, loc_Exact).
Proof.
rewrite /SFdiv_core_binary.
have -> : (Zdigits2 (Z.pos m) + e - (Zdigits2 (Z.pos m) + e) = 0)%Zb by lia.
have -> : (e - e = 0)%Zb by lia.
change (Z.min (fexp prec emax 0) 0) with (-53)%Zb.
change (0 - -53)%Zb with 53%Zb.
rewrite Z.shiftl_mul_pow2 // Z.mul_comm.
change (2 ^ 53)%Zb with 9007199254740992%Zb.
rewrite div_eucl_mul //.
by rewrite /new_location /new_location_even /new_location_odd;
  case: (Z.even _).
Qed.

Lemma b64_div_self x :
  b64_isfinite x -> ~~ b64_is_zero x -> b64_div x x = b64_one.
Proof.
case: x => [[]|[]||s m e] //= _ _.
by rewrite /b64_div /SFdiv SFdiv_core_self; case: s.
Qed.

Lemma b64_is_zeroP x : b64_is_zero x -> exists sg, x = S754_zero sg.
Proof. by case: x => [sg|[]||[] m e] // _; exists sg. Qed.

Lemma b64_mul_finite_zero a :
  b64_isfinite a -> b64_is_zero (b64_mul a b64_zero).
Proof. by case: a => [[]|[]||[] m e]. Qed.

Lemma b64_add_zeros x y :
  b64_is_zero x -> b64_is_zero y -> b64_is_zero (b64_add x y).
Proof. by move=> /b64_is_zeroP[[] ->] /b64_is_zeroP[[] ->]. Qed.

Lemma foldl_ord_ext (T : Type) n (f g : T -> 'I_n -> T) z :
  (forall t i, f t i = g t i) -> foldl_ord f z = foldl_ord g z.
Proof.
elim: n f g => [|n IH] f g eq_fg //=.
by rewrite eq_fg; congr (g _ _); apply: IH => t i.
Qed.

Lemma b64_accumulate_zeros n :
  b64_accumulate (fun _ : 'I_n => b64_zero) = b64_zero.
Proof. by rewrite /b64_accumulate; elim: n => [|n IH] //=; rewrite IH. Qed.

Lemma b64_inv_zero_column n (A : 'M[spec_float]_n.+1) :
  (forall i, b64_is_zero (A i ord0)) -> b64_inv A = None.
Proof. by move=> col0; rewrite /b64_inv /= /pivot col0. Qed.

Lemma binary64_lawful : lawful binary64.
Proof.
split=> //=.
- exact: b64_sub_self.
- exact: b64_div_self.
- exact: b64_mul_finite_zero.
- exact: b64_add_zeros.
- move=> n; rewrite /b64_sum -[RHS](b64_accumulate_zeros n).
  by apply: foldl_ord_ext => t i; rewrite mxE.
- by move=> m p A B; apply/matrixP => i j; rewrite !mxE.
- exact: b64_inv_zero_column.
Qed.

(** ** Factorization of a matrix of order two *)

Lemma pivot_row2 (A : 'M[spec_float]_(1 + 1)) :
  pivot_row A = if exchanged A then ord_max else ord0.
Proof.
rewrite /pivot_row /exchanged /=.
have -> : widen_ord (leqnSn 1) ord_max = ord0 :> 'I_2 by exact: val_inj.
by rewrite !if_same.
Qed.

Lemma pivot1 (S : 'M[spec_float]_1) : pivot S = S ord0 ord0.
Proof.
rewrite /pivot /pivot_row /=.
have -> : ord_max = ord0 :> 'I_1 by exact: val_inj.
by rewrite if_same.
Qed.

(** [np.linalg.inv] of a matrix of order two fails when the second
    pivot is zero, and returns when both pivots are non-zero. *)
Lemma b64_inv2_fails (A : 'M[spec_float]_(1 + 1)) :
  b64_is_zero (second_pivot A) -> b64_inv A = None.
Proof.
move=> zero2; rewrite /b64_inv /=; case: ifP => // _.
by rewrite pivot1 -/(second_pivot A) zero2.
Qed.

Lemma b64_inv2_returns (A : 'M[spec_float]_(1 + 1)) :
  ~~ b64_is_zero (pivot A) -> ~~ b64_is_zero (second_pivot A) ->
  exists Minv, b64_inv A = Some Minv.
Proof.
move=> /negbTE nz1 /negbTE nz2; rewrite /b64_inv /= nz1.
by rewrite pivot1 -/(second_pivot A) nz2; eexists.
Qed.

(** * Concrete runs *)

(** ** Arrays of doubles *)

Lemma hstacked_rows n p (rows : seq (seq spec_float)) :
  size rows = n ->
  hstacked (b64_matrix n p rows) =
    b64_matrix n (1 + p) [seq b64_one :: r | r <- rows].
Proof.
move=> size_rows; apply/matrixP => i j; rewrite mxE.
have lt_i : (i < size rows)%N by rewrite size_rows.
by case: splitP => j' ej; rewrite /b64_matrix !mxE (nth_map [::]) // ej //
  [j']ord1.
Qed.

Arguments b64_add : simpl never.
Arguments b64_sub : simpl never.
Arguments b64_mul : simpl never.
Arguments b64_div : simpl never.
Arguments b64_is_zero : simpl never.
Arguments b64_of_Z : simpl never.
Arguments b64_one : simpl never.
Arguments fl : simpl never.
Arguments SFltb : simpl never.
Arguments SFabs : simpl never.

Ltac ord2 i := case: i => [[|[|i]] ?] //.

Ltac floats :=
  lazymatch goal with
  | |- context [fun_of_matrix] => fail "an array is left"
  | _ => by vm_compute
  end.

(** The matrices that [fit] hands to [np.linalg.inv]. *)
Lemma inv_arg_equal_samples :
  inv_arg (K := binary64) tiny_alpha equal_samples =
    b64_matrix 2 2 [:: [:: fl 2; fl 2]; [:: fl 2; fl 2]].
Proof.
rewrite /inv_arg /gram hstacked_rows //.
by apply/matrixP => i j; ord2 i; ord2 j;
  rewrite /b64_matrix !mxE /b64_accumulate /= !mxE /=; floats.
Qed.

Lemma inv_arg_sample49 :
  inv_arg (K := binary64) b64_zero sample49 =
    b64_matrix 2 2 [:: [:: fl 1; fl 49]; [:: fl 49; fl 2401]].
Proof.
rewrite /inv_arg /gram hstacked_rows //.
by apply/matrixP => i j; ord2 i; ord2 j;
  rewrite /b64_matrix !mxE /b64_accumulate /= !mxE /=; floats.
Qed.

Lemma inv_arg_sample0 :
  inv_arg (K := binary64) b64_zero sample0 =
    b64_matrix 2 2 [:: [:: fl 1; fl 0]; [:: fl 0; fl 0]].
Proof.
rewrite /inv_arg /gram hstacked_rows //.
by apply/matrixP => i j; ord2 i; ord2 j;
  rewrite /b64_matrix !mxE /b64_accumulate /= !mxE /=; floats.
Qed.

Lemma inv_arg_opposite_samples :
  inv_arg (K := binary64) (fl 2) opposite_samples =
    b64_matrix 2 2 [:: [:: fl 2; fl 0]; [:: fl 0; fl 4]].
Proof.
rewrite /inv_arg /gram hstacked_rows //.
by apply/matrixP => i j; ord2 i; ord2 j;
  rewrite /b64_matrix !mxE /b64_accumulate /= !mxE /=; floats.
Qed.

(** The pivots of the factorization, evaluated. *)
Ltac pivots :=
  rewrite /second_pivot /schur /pivot pivot_row2 /exchanged /b64_matrix
    ?mxE /=.

Lemma equal_samples_fails :
  inv_kernel (inv_arg (K := binary64) tiny_alpha equal_samples) = None.
Proof.
rewrite inv_arg_equal_samples; apply: b64_inv2_fails.
by pivots; floats.
Qed.

Lemma sample0_fails :
  inv_kernel (inv_arg (K := binary64) b64_zero sample0) = None.
Proof.
rewrite inv_arg_sample0; apply: b64_inv2_fails.
by pivots; floats.
Qed.

Lemma sample49_returns :
  exists Minv,
    inv_kernel (inv_arg (K := binary64) b64_zero sample49) = Some Minv.
Proof.
by rewrite inv_arg_sample49; apply: b64_inv2_returns; pivots; floats.
Qed.

Lemma opposite_samples_returns :
  exists Minv,
    inv_kernel (inv_arg (K := binary64) (fl 2) opposite_samples) = Some Minv.
Proof.
by rewrite inv_arg_opposite_samples; apply: b64_inv2_returns; pivots;
  floats.
Qed.

Lemma value_gt0 m e : 0 < value (S754_finite false m e).
Proof.
rewrite /value mul1r; apply: mulr_gt0; last by rewrite exprz_gt0 // ltr0n.
by rewrite ltr0n; apply/ltP; exact: Pos2Nat.is_pos.
Qed.

Lemma tiny_alpha_gt0 : 0 < value tiny_alpha.
Proof.
have -> : tiny_alpha = S754_finite false 4503599627370496 (-106).
  by vm_compute.
exact: value_gt0.
Qed.

(** ** Runs of [fit] on doubles *)

(** An invertible matrix that [fit] cannot invert: with [alpha = 2 ** -54]
    and the two samples [[1], [1]], the normal matrix has the rows
    [2, 2] and [2, 2 + alpha] and is invertible, but [2 + alpha] is
    rounded to [2.0]: the matrix handed to [np.linalg.inv] has two equal
    rows and [fit] raises [LinAlgError]. *)
Lemma fit_rounded_matrix_counterexample :
  let s := fresh_store tiny_alpha equal_samples targets01 in
  [/\ lookup (objs s) 0 = Some (@Estimator binary64 tiny_alpha None None),
      lookup (mats s) 0 = Some (Mat equal_samples),
      lookup (vecs s) 0 = Some (Vec targets01),
      normal_matrix (value tiny_alpha) (map_mx value equal_samples)
        \in unitmx
    & exists s', fit 0 0 0 s = (Raise LinAlgError, s')].
Proof.
split; [by [] | by [] | by [] | | ].
  exact: (@normal_matrix_regular _ 2 1 _ _ isT tiny_alpha_gt0).
eexists.
exact: (@fit_inv_raises binary64
          (fresh_store tiny_alpha equal_samples targets01) 0 0 0
          (@Estimator binary64 tiny_alpha None None) 2 1 equal_samples
          erefl erefl equal_samples_fails).
Qed.

(** A run of [fit] that returns: [alpha = 2], the samples [[1], [-1]]
    and the targets [1, 3]. *)
Lemma fit_solves_normal_equations_witness :
  let s := fresh_store (fl 2) opposite_samples targets13 in
  exists Minv : 'M[binary64]_(1 + 1),
    inv_kernel (inv_arg (K := binary64) (fl 2) opposite_samples) = Some Minv /\
    let w := matvec_kernel (matmul_kernel Minv (hstacked opposite_samples)^T)
               targets13 in
    (exists s' : store binary64,
       fit 0 0 0 s = (Return tt, s') /\
       fitted_with s' 0 (dsubmx w) (w 0 0))
    /\
    (forall (R : realFieldType) (val : binary64 -> R),
       map_mx val (inv_arg (K := binary64) (fl 2) opposite_samples) =
         normal_matrix (val (fl 2)) (map_mx val opposite_samples) ->
       map_mx val Minv *m
         map_mx val (inv_arg (K := binary64) (fl 2) opposite_samples) = 1%:M ->
       map_mx val w =
         map_mx val Minv *m
           normal_rhs (map_mx val opposite_samples) (map_mx val targets13) ->
       unique_solution (val (fl 2)) (map_mx val opposite_samples)
         (map_mx val targets13) (map_mx val w)).
Proof.
have [Minv reg] := opposite_samples_returns.
exists Minv; split; first exact: reg.
exact: (@fit_solves_normal_equations binary64
          (fresh_store (fl 2) opposite_samples targets13) 0 0 0
          (@Estimator binary64 (fl 2) None None) 2 1 opposite_samples
          targets13 Minv erefl erefl erefl reg).
Defined.

(** A singular matrix that [fit] inverts: with [alpha = 0] and the one
    sample [[49]], the normal matrix has the rows [1, 49] and
    [49, 2401] and is singular, but the second pivot of its
    factorization, [49 - (1 / 49) * 2401], is [2 ** -47] in doubles, not
    zero: [np.linalg.inv] returns and so does [fit]. *)
Lemma fit_singular_returns_counterexample :
  let s := fresh_store b64_zero sample49 target1 in
  [/\ lookup (objs s) 0 = Some (@Estimator binary64 b64_zero None None),
      lookup (mats s) 0 = Some (Mat sample49),
      lookup (vecs s) 0 = Some (Vec target1),
      normal_matrix (value b64_zero) (map_mx value sample49) \notin unitmx
    & exists s', fit 0 0 0 s = (Return tt, s')].
Proof.
split; [by [] | by [] | by [] | | ].
  exact: (@underdetermined_singular _ 1 1 _ isT).
have [Minv reg] := sample49_returns; eexists.
exact: (@fit_ok binary64 (fresh_store b64_zero sample49 target1) 0 0 0
          (@Estimator binary64 b64_zero None None) 1 1 sample49 target1 Minv
          erefl erefl erefl reg).
Qed.

(** The same two samples as above: [np.linalg.inv] fails and [fit]
    raises [LinAlgError], the estimator and the vectors being as
    before. *)
Lemma fit_singular_raises_witness :
  let s := fresh_store tiny_alpha equal_samples targets01 in
  exists s' : store binary64,
    [/\ fit 0 0 0 s = (Raise LinAlgError, s'),
        objs s' = objs s & vecs s' = vecs s].
Proof.
have [raises _ _] :=
  @fit_singular_raises binary64
    (fresh_store tiny_alpha equal_samples targets01) 0 0 0
    (@Estimator binary64 tiny_alpha None None) 2 1 equal_samples erefl erefl.
exact: raises equal_samples_fails.
Defined.

(** A dimension mismatch that is not reported as one: with [alpha = 0],
    [X = [[0]]] (one row) and [y = [0, 0]] (length two), [fit] raises
    [LinAlgError], not [ValueError]: [np.linalg.inv] fails before [y] is
    looked at. *)
Lemma fit_row_mismatch_counterexample :
  let s := fresh_store b64_zero sample0 targets00 in
  [/\ lookup (mats s) 0 = Some (Mat sample0),
      lookup (vecs s) 0 = Some (Vec targets00),
      exists s', fit 0 0 0 s = (Raise LinAlgError, s')
    & ~ exists s', fit 0 0 0 s = (Raise ValueError, s')].
Proof.
have run := @fit_inv_raises binary64
  (fresh_store b64_zero sample0 targets00) 0 0 0
  (@Estimator binary64 b64_zero None None) 1 1 sample0 erefl erefl
  sample0_fails.
by split=> //; [eexists; exact: run | case=> s'; rewrite run].
Qed.

(** Mismatched shapes: two samples and three targets, with a matrix that
    [np.linalg.inv] inverts and with one on which it fails, and a fitted
    estimator with one coefficient given an [X] of two columns. *)
Lemma dimension_mismatch_raises_witness :
  [/\ exists s' : store binary64,
        fit 0 0 0 (fresh_store (fl 2) opposite_samples targets135) =
          (Raise ValueError, s'),
      exists s' : store binary64,
        fit 0 0 0 (fresh_store tiny_alpha equal_samples targets135) =
          (Raise LinAlgError, s')
    & let s := fitted_store b64_zero coef0 wide_sample target1 in
      predict 0 0 s = (Raise ValueError, s)].
Proof.
have [by_matrix aligned] := dimension_mismatch_raises binary64.
split.
- have [s' run] := by_matrix
    (fresh_store (fl 2) opposite_samples targets135)
    0%N 0%N 0%N (@Estimator binary64 (fl 2) None None) 2%N 1%N 3%N
    opposite_samples targets135
    erefl erefl erefl isT.
  by have [Minv reg] := opposite_samples_returns; rewrite reg in run; exists s'.
- have [s' run] := by_matrix
    (fresh_store tiny_alpha equal_samples targets135)
    0%N 0%N 0%N (@Estimator binary64 tiny_alpha None None) 2%N 1%N 3%N
    equal_samples targets135
    erefl erefl erefl isT.
  by rewrite equal_samples_fails in run; exists s'.
- apply: (aligned _ 0%N 0%N 1%N 2%N 1%N wide_sample coef0 b64_zero) => //.
  by exists (@Estimator binary64 b64_one (Some 1%N) (Some b64_zero)), 1%N.
Defined.

(** ** Runs of [predict], [score] and the accessors on doubles *)

Lemma fitted_zero n q (X : 'M[binary64]_(n, q)) m (y : 'cV[binary64]_m) :
  fitted_with (fitted_store b64_zero coef0 X y) 0 coef0 b64_zero.
Proof.
by exists (@Estimator binary64 b64_one (Some 1%N) (Some b64_zero)), 1%N.
Qed.

(** No error before fitting: on a freshly constructed estimator,
    [predict] of an [X] with no row (shape [(0, 1)]) returns an empty
    array and raises nothing. *)
Lemma predict_unfitted_empty_counterexample :
  let s := fresh_store b64_one no_sample no_target in
  [/\ lookup (objs s) 0 = Some (@Estimator binary64 b64_one None None),
      unfitted (@Estimator binary64 b64_one None None),
      lookup (mats s) 0 = Some (Mat no_sample)
    & predict 0 0 s = (Return (EmptyObject [:: 0; 1]%N), s)].
Proof. by []. Qed.

(** [predict] and [score] on a freshly constructed estimator,
    [X = [[0]]]. *)
Lemma unfitted_raises_witness :
  let s := fresh_store b64_one sample0 target1 in
  predict 0 0 s = (Raise TypeError, s) /\
  score 0 0 0 s = (Raise TypeError, s).
Proof.
exact: (@unfitted_raises binary64 (fresh_store b64_one sample0 target1) 0 0 0
          (@Estimator binary64 b64_one None None) (Mat sample0)
          erefl (conj erefl erefl) erefl isT).
Defined.

(** An unknown key is accepted: [set_params(beta=1)] returns the
    estimator and raises nothing. *)
Lemma set_params_unknown_key_counterexample :
  let s := fresh_store b64_one sample0 target1 in
  String.eqb "beta" "alpha" = false /\
  set_params 0 [:: ("beta"%string, fl 1)] s = (Return 0%N, s).
Proof. by []. Qed.

(** [set_params(alpha=5)] and [set_params(beta=5)]. *)
Lemma set_params_ignores_unknown_keys_witness :
  let s := fresh_store b64_one sample0 target1 in
  set_params 0 [:: ("alpha"%string, fl 5)] s =
    (Return 0%N,
     with_alpha s 0 (@Estimator binary64 b64_one None None) (fl 5)) /\
  set_params 0 [:: ("beta"%string, fl 5)] s = (Return 0%N, s).
Proof.
have [_ known unknown] :=
  @set_params_ignores_unknown_keys binary64
    (fresh_store b64_one sample0 target1) 0
    (@Estimator binary64 b64_one None None) erefl.
by split; [exact: known | exact: unknown].
Defined.

(** The two outcomes of [fit], at [alpha = 2], [X = [[1], [-1]]],
    [y = [1, 3]]. *)
Lemma fit_all_or_nothing_witness :
  let s := fresh_store (fl 2) opposite_samples targets13 in
  (exists (w : 'cV[binary64]_(1 + 1)) (s' : store binary64),
     fit 0 0 0 s = (Return tt, s') /\ fitted_with s' 0 (dsubmx w) (w 0 0))
  \/
  (exists (ex : exn) (s' : store binary64),
     [/\ fit 0 0 0 s = (Raise ex, s'), objs s' = objs s & vecs s' = vecs s]).
Proof.
exact: (@fit_all_or_nothing binary64
          (fresh_store (fl 2) opposite_samples targets13) 0 0 0
          (@Estimator binary64 (fl 2) None None) 2 1 2 opposite_samples
          targets13 erefl erefl erefl).
Defined.

(** What [fit] leaves alone, at [alpha = 2], [X = [[1], [-1]]] and three
    targets. *)
Lemma fit_frame_witness :
  let s := fresh_store (fl 2) opposite_samples targets135 in
  let s' := (fit 0 0 0 s).2 in
  [/\ lookup (mats s') 0 = Some (Mat opposite_samples),
      lookup (vecs s') 0 = Some (Vec targets135),
      exists2 e', lookup (objs s') 0 = Some e' & alpha e' = fl 2
    & [/\ forall l A,
            lookup (mats s) l = Some A -> lookup (mats s') l = Some A,
          forall l v,
            lookup (vecs s) l = Some v -> lookup (vecs s') l = Some v
        & forall o e0, o != 0%N ->
            lookup (objs s) o = Some e0 -> lookup (objs s') o = Some e0]].
Proof.
exact: (@fit_frame binary64
          (fresh_store (fl 2) opposite_samples targets135) 0 0 0
          (@Estimator binary64 (fl 2) None None) 2 1 3 opposite_samples
          targets135 erefl erefl erefl).
Defined.

(** Entries of concrete arrays, evaluated. *)
Ltac entries :=
  repeat progress
    (cbv delta [linear_model shifted mean zero_samples coef0 targets00
                targets01 targets13 target1 b64_vector b64_matrix b64_sum
                b64_accumulate];
     rewrite ?mxE /=).

Lemma linear_model_zero :
  linear_model zero_samples coef0 b64_zero = targets00.
Proof. by apply/colP => i; ord2 i; entries; floats. Qed.

Lemma mean_targets00 : const_mx (mean targets00) = targets00.
Proof. by apply/colP => i; ord2 i; entries; floats. Qed.

Lemma all_finite_targets00 : all_finite targets00.
Proof. by apply/forallP => i; ord2 i; entries. Qed.

Lemma all_finite_targets01 : all_finite targets01.
Proof. by apply/forallP => i; ord2 i; entries. Qed.

(** Constant targets: with [y = [0, 0]] and a fitted model whose
    predictions are [0, 0], every prediction equals the mean of the
    targets (and equals the targets), and [score] returns [1.0], not
    [0.0]. *)
Lemma score_constant_targets_counterexample :
  let s := fitted_store b64_zero coef0 zero_samples targets00 in
  let yhat := linear_model zero_samples coef0 b64_zero in
  [/\ fitted_with s 0 coef0 b64_zero,
      yhat = const_mx (mean targets00),
      (score 0 0 0 s).1 = Return (Float (fone : binary64))
    & (score 0 0 0 s).1 <> Return (Float (fzero : binary64))].
Proof.
have fin_yhat : all_finite (linear_model zero_samples coef0 b64_zero).
  by rewrite linear_model_zero; exact: all_finite_targets00.
have run : (score 0 0 0
              (fitted_store b64_zero coef0 zero_samples targets00)).1 =
           Return (Float (fone : binary64)).
  rewrite (@score_fitted_r2 binary64 _ 0 0 0 2 1 zero_samples targets00
             coef0 b64_zero (fitted_zero _ _) erefl erefl isT
             all_finite_targets00 fin_yhat).
  rewrite linear_model_zero (r2_refl binary64_lawful) //.
  exact: all_finite_targets00.
split=> //; first exact: fitted_zero.
- by rewrite linear_model_zero mean_targets00.
- by rewrite run => -[].
Qed.

(** The score for the targets [0, 1] and the predictions [0, 0]. *)
Lemma score_is_r2_witness :
  let s := fitted_store b64_zero coef0 zero_samples targets01 in
  let yhat := linear_model zero_samples coef0 b64_zero in
  exists (x : binary64) (s' : store binary64),
    [/\ (exists2 l, predict 0 0 s = (Return (FloatVec l), s')
                  & lookup (vecs s') l = Some (Vec yhat)),
        score 0 0 0 s = (Return (Float x), s'),
        ~~ is_zero (ss_res targets01 yhat) -> ~~ is_zero (ss_tot targets01) ->
          x = fsub fone (fdiv (ss_res targets01 yhat) (ss_tot targets01)),
        yhat = targets01 -> x = fone
      & yhat = const_mx (mean targets01) ->
        ~~ is_zero (ss_tot targets01) -> isfinite (ss_tot targets01) ->
        x = fzero].
Proof.
apply: (@score_is_r2 binary64
          (fitted_store b64_zero coef0 zero_samples targets01) 0 0 0 2 1
          zero_samples targets01 coef0 b64_zero binary64_lawful
          (fitted_zero _ _) erefl erefl isT all_finite_targets01).
by rewrite linear_model_zero; exact: all_finite_targets00.
Defined.


(** A fit of [X = [[1], [-1]]], [y = [1, 3]] with [alpha = 2], followed
    by four calls. *)
Lemma coef_length_invariant_witness :
  let s := fresh_store (fl 2) opposite_samples targets13 in
  let calls :=
    [:: CallPredict binary64 0; CallSetParams [:: ("alpha"%string, fl 5)];
        CallScore binary64 0 0; CallGetParams binary64] in
  exists s' : store binary64,
    [/\ fit 0 0 0 s = (Return tt, s'), coef_length s' 0 = Some 1%N
      & coef_length (foldl (run_call 0) s' calls) 0 = Some 1%N].
Proof.
have [Minv reg] := opposite_samples_returns.
have run := @fit_ok binary64 (fresh_store (fl 2) opposite_samples targets13)
  0 0 0 (@Estimator binary64 (fl 2) None None) 2 1 opposite_samples
  targets13 Minv erefl erefl erefl reg.
eexists; split; first exact: run.
  exact: (proj1 (@coef_length_invariant binary64
            (fresh_store (fl 2) opposite_samples targets13) 0 0 0
            (@Estimator binary64 (fl 2) None None) 2 1 2 opposite_samples
            targets13 _ [::] erefl erefl erefl run)).
exact: (proj2 (@coef_length_invariant binary64
          (fresh_store (fl 2) opposite_samples targets13) 0 0 0
          (@Estimator binary64 (fl 2) None None) 2 1 2 opposite_samples
          targets13 _ _ erefl erefl erefl run)).
Defined.

(** ** Runs for the further properties *)

Lemma fit_no_sample_raises_witness :
  exists s' : store binary64,
    fit 0 0 0 (fresh_store b64_one no_sample no_target) =
      (Raise LinAlgError, s').
Proof.
exact: (@fit_no_sample_raises binary64
          (fresh_store b64_one no_sample no_target) 0 0 0
          (@Estimator binary64 b64_one None None) 1 no_sample
          binary64_lawful erefl erefl isT).
Defined.

Lemma fit_then_predict_witness :
  let s := fresh_store (fl 2) opposite_samples targets13 in
  exists Minv : 'M[binary64]_(1 + 1),
    inv_kernel (inv_arg (K := binary64) (fl 2) opposite_samples) = Some Minv /\
    let w := fit_weights Minv opposite_samples targets13 in
    exists (s' s'' : store binary64) (l : nat),
      [/\ fit 0 0 0 s = (Return tt, s'),
          predict 0 0 s' = (Return (FloatVec l), s''),
          lookup (vecs s'') l =
            Some (Vec (linear_model opposite_samples (dsubmx w) (w 0 0)))
        & lookup (vecs s) l = None].
Proof.
have [Minv reg] := opposite_samples_returns.
exists Minv; split; first exact: reg.
exact: (@fit_then_predict binary64
          (fresh_store (fl 2) opposite_samples targets13) 0 0 0
          (@Estimator binary64 (fl 2) None None) 2 1 opposite_samples
          targets13 Minv erefl erefl erefl reg).
Defined.

Lemma fitted_ramp : fitted_with fitted_ramp_store 0 (0 : 'cV[rat]_1) 0.
Proof. by exists (@Estimator (exact rat) 1 (Some 1%N) (Some 0)), 1%N. Qed.

Lemma all_finite_exact (R : realFieldType) n (v : 'cV[R]_n) :
  all_finite (K := exact R) v.
Proof. exact/forallP. Qed.

Lemma score_ramp_run :
  score 0 0 0 fitted_ramp_store =
    (Return (Float (r2 (K := exact rat) ramp
                      (linear_model (K := exact rat) (0 : 'M[rat]_(2, 1))
                         (0 : 'cV[rat]_1) 0))),
     (score 0 0 0 fitted_ramp_store).2).
Proof.
by rewrite (@score_fitted_r2 (exact rat) fitted_ramp_store 0 0 0 2 1 0 ramp
              0 0 fitted_ramp erefl erefl isT (all_finite_exact _)
              (all_finite_exact _)).
Qed.

Lemma score_at_most_one_witness :
  (r2 (K := exact rat) ramp
     (linear_model (K := exact rat) (0 : 'M[rat]_(2, 1)) (0 : 'cV[rat]_1) 0)
   : rat) <= 1.
Proof. exact: (score_at_most_one score_ramp_run). Defined.

Lemma score_length_mismatch_raises_witness :
  exists s' : store binary64,
    score 0 0 0 (fitted_store b64_zero coef0 zero_samples targets135) =
      (Raise ValueError, s').
Proof.
exact: (@score_length_mismatch_raises binary64
          (fitted_store b64_zero coef0 zero_samples targets135) 0 0 0
          2 1 zero_samples coef0 b64_zero (fitted_zero _ _) erefl 3
          targets135 erefl isT).
Defined.

Lemma all_finite_target1 : all_finite target1.
Proof. by apply/forallP => i; rewrite [i]ord1; entries. Qed.

Lemma all_finite_prediction0 :
  all_finite (linear_model sample0 coef0 b64_zero).
Proof.
by apply/forallP => i; rewrite [i]ord1; cbv delta [sample0]; entries.
Qed.

Lemma score_few_samples_witness :
  exists s' : store binary64,
    score 0 0 0 (fitted_store b64_zero coef0 sample0 target1) =
      (Return NaN, s').
Proof.
exact: (@score_few_samples binary64
          (fitted_store b64_zero coef0 sample0 target1) 0 0 0
          1 1 sample0 coef0 b64_zero (fitted_zero _ _) erefl target1 erefl
          isT all_finite_target1 all_finite_prediction0).
Defined.

Lemma predict_linear_model_witness :
  let s := fitted_store b64_zero coef0 zero_samples targets01 in
  exists (l l' : nat) (s' s'' : store binary64),
    [/\ predict 0 0 s = (Return (FloatVec l), s'),
        lookup (vecs s') l =
          Some (Vec (linear_model zero_samples coef0 b64_zero)),
        fitted_with s' 0 coef0 b64_zero,
        predict 0 0 s' = (Return (FloatVec l'), s'')
      & lookup (vecs s'') l' =
          Some (Vec (linear_model zero_samples coef0 b64_zero))].
Proof.
exact: (@predict_linear_model binary64
          (fitted_store b64_zero coef0 zero_samples targets01) 0 0
          2 1 zero_samples coef0 b64_zero (fitted_zero _ _) erefl).
Defined.

Lemma refit_from_scratch_witness :
  let s := fresh_store (fl 2) opposite_samples targets13 in
  exists Minv : 'M[binary64]_(1 + 1),
    inv_kernel (inv_arg (K := binary64) (fl 2) opposite_samples) = Some Minv /\
    let w := fit_weights Minv opposite_samples targets13 in
    exists (s1 s2 : store binary64) (lc1 lc2 : nat),
      [/\ fit 0 0 0 s = (Return tt, s1),
          coef_at s1 0 lc1 /\ lookup (vecs s1) lc1 = Some (Vec (dsubmx w)),
          fit 0 0 0 s1 = (Return tt, s2),
          coef_at s2 0 lc2 /\ lookup (vecs s2) lc2 = Some (Vec (dsubmx w))
        & [/\ fitted_with s2 0 (dsubmx w) (w 0 0), lc2 != lc1
            & lookup (vecs s2) lc1 = Some (Vec (dsubmx w))]].
Proof.
have [Minv reg] := opposite_samples_returns.
exists Minv; split; first exact: reg.
exact: (@refit_from_scratch binary64
          (fresh_store (fl 2) opposite_samples targets13) 0 0 0 0 0
          (@Estimator binary64 (fl 2) None None) 2 1 2 1
          opposite_samples targets13 opposite_samples targets13 Minv Minv
          erefl erefl erefl erefl erefl reg reg).
Defined.

Lemma set_params_keeps_fit_witness :
  let s := fitted_store b64_zero coef0 zero_samples targets01 in
  exists (s1 s2 : store binary64) (l : nat),
    [/\ set_params 0 [:: ("alpha"%string, fl 5)] s = (Return 0%N, s1),
        fitted_with s1 0 coef0 b64_zero,
        predict 0 0 s1 = (Return (FloatVec l), s2)
      & lookup (vecs s2) l =
          Some (Vec (linear_model zero_samples coef0 b64_zero))].
Proof.
exact: (@set_params_keeps_fit binary64
          (fitted_store b64_zero coef0 zero_samples targets01) 0
          [:: ("alpha"%string, fl 5)] 0 2 1 zero_samples coef0 b64_zero
          (fitted_zero _ _) erefl).
Defined.

Lemma reconstruct_unfitted_copy_witness :
  let s := fitted_store b64_zero coef0 zero_samples targets01 in
  exists (copy : nat) (s' : store binary64),
    [/\ reconstruct 0 s = (Return copy, s'),
        copy != 0%N,
        lookup (objs s') copy = Some (@Estimator binary64 b64_one None None),
        lookup (objs s') 0 =
          Some (@Estimator binary64 b64_one (Some 1%N) (Some b64_zero))
      & mats s' = mats s /\ vecs s' = vecs s].
Proof.
exact: (@reconstruct_unfitted_copy binary64
          (fitted_store b64_zero coef0 zero_samples targets01) 0
          (@Estimator binary64 b64_one (Some 1%N) (Some b64_zero)) erefl).
Defined.

Lemma notebook_inv :
  inv_kernel (inv_arg (K := exact rat) 5%:R (0 : 'M[rat]_(1, 1))) =
    Some (invmx (normal_matrix 5%:R (0 : 'M[rat]_(1, 1)))).
Proof.
by rewrite inv_arg_exact /= normal_matrix_regular.
Qed.

Lemma notebook_run_returns_witness :
  let Minv := invmx (normal_matrix (5%:R : rat) (0 : 'M[rat]_(1, 1))) in
  let w := fit_weights (K := exact rat) Minv (0 : 'M[rat]_(1, 1)) 0 in
  let yhat := linear_model (K := exact rat) (0 : 'M[rat]_(2, 1))
                (dsubmx w) (w 0 0) in
  exists (l : nat) (s' : store (exact rat)),
    [/\ notebook_run (K := exact rat) [:: ("alpha"%string, 5%:R)] 0 0 1 1
          notebook_store =
          (Return (0%N, Float (r2 (K := exact rat) ramp yhat), FloatVec l), s'),
        fitted_with s' 0 (dsubmx w) (w 0 0)
      & lookup (vecs s') l = Some (Vec yhat)].
Proof.
exact: (@notebook_run_returns (exact rat) notebook_store
          [:: ("alpha"%string, 5%:R)] 0 0 1 1 1 2 1 0 0 0 ramp _
          erefl erefl erefl erefl notebook_inv isT (all_finite_exact _)
          (all_finite_exact _)).
Defined.
